(** * KPI2KVI chat front end: the streamed-turn handler of [App]

    A shallow embedding of [handleSendMessage] (the server-sent-event
    variant, and the single-reply variant of [frontend/src/App.tsx]) together
    with the properties of the turn it drives: which messages reach the
    conversation, when buffered text becomes visible, how malformed frames
    and transport failures are absorbed, and when the session identifier is
    bound.

    Conventions.  A JavaScript string is a [string]; its characters stand
    for code units below 256.  React state is a record, and the setters
    ([setMessages], [setIsTyping], ...) are applied in program order, each
    with the values its arguments have when it is called.  The
    [let] variables of one call of the handler ([completeResponse],
    [currentAgentContent], [aiMessageAdded]) live in the same record as the
    React state they are interleaved with.  What the closure of one call
    captured ([aiMsgId], and the [sessionId] of the render that created the
    handler) is passed as a separate, constant argument. *)

From Stdlib Require Import String Ascii List Bool ZArith Lia.
From Stdlib Require Import DecimalString DecimalZ.
From Stdlib Require DecimalPos QArith Permutation Sorted.
Import ListNotations.

#[local] Set Warnings "-register-all".

Local Open Scope string_scope.
Local Open Scope list_scope.

(* ------------------------------------------------------------------ *)
(** ** Runtime primitives the handler calls *)

Module JS.

(** [s.startsWith(p)]. *)
Definition startsWith (p s : string) : bool := String.prefix p s.

(** [s.slice(n)] for [0 <= n]: the string without its first [n] code
    units (empty when it has no more than [n]). *)
Fixpoint slice (n : nat) (s : string) : string :=
  match n, s with
  | O, _ => s
  | S _, EmptyString => EmptyString
  | S k, String _ r => slice k r
  end.

Definition LF : ascii := ascii_of_nat 10.

(** [s.split('\n')]: the pieces between line feeds, in order; always at
    least one piece, the last one being what follows the last line feed. *)
Fixpoint split (s : string) : list string :=
  match s with
  | EmptyString => [EmptyString]
  | String c r =>
      if Ascii.eqb c LF then EmptyString :: split r
      else match split r with
           | [] => [String c EmptyString]
           | piece :: pieces => String c piece :: pieces
           end
  end.

(** White space and line terminators of ECMAScript among the code units
    below 256: TAB, LF, VT, FF, CR, SP and NBSP. *)
Definition isWhiteSpace (c : ascii) : bool :=
  let n := nat_of_ascii c in
  ((9 <=? n)%nat && (n <=? 13)%nat) || (n =? 32)%nat || (n =? 160)%nat.

Fixpoint trimStart (s : string) : string :=
  match s with
  | EmptyString => EmptyString
  | String c r => if isWhiteSpace c then trimStart r else s
  end.

Fixpoint trimEnd (s : string) : string :=
  match s with
  | EmptyString => EmptyString
  | String c r =>
      match trimEnd r with
      | EmptyString => if isWhiteSpace c then EmptyString else String c EmptyString
      | r' => String c r'
      end
  end.

(** [s.trim()]. *)
Definition trim (s : string) : string := trimEnd (trimStart s).

(** ToBoolean on a string: only the empty string is falsy. *)
Definition truthy (s : string) : bool :=
  match s with EmptyString => false | String _ _ => true end.

(** [n.toString()] for an integer [n] (below 1e21 in magnitude, where
    JavaScript prints plain decimal digits), as used on [Date.now()]. *)
Definition Number_toString (n : Z) : string :=
  NilZero.string_of_int (Z.to_int n).

End JS.

(* ------------------------------------------------------------------ *)
(** ** Parsed payloads *)

(** What [JSON.parse] returns.  A number keeps its literal: the handler
    never computes with one. *)
Inductive json : Type :=
| JNull
| JBool (b : bool)
| JNumber (literal : string)
| JString (s : string)
| JArray (items : list json)
| JObject (members : list (string * json)).

(** The value of a field as the handler uses it.  The frames of the wire
    format carry a string in every field the handler reads; a missing
    field reads [undefined], and [null] is accepted beside it. *)
Inductive JsVal : Type :=
| undefined
| null
| str (s : string).

(** ToBoolean. *)
Definition truthy (v : JsVal) : bool :=
  match v with
  | str s => JS.truthy s
  | _ => false
  end.

(** ToString, as [+=] on a string applies it. *)
Definition toString (v : JsVal) : string :=
  match v with
  | undefined => "undefined"
  | null => "null"
  | str s => s
  end.

(** [a || b] where [b] is a string: [a] itself when it is truthy (then it
    is a string). *)
Definition orElse (v : JsVal) (fallback : string) : string :=
  match v with
  | str (String c r) => String c r
  | _ => fallback
  end.

(** [eventData.key] on a parsed value other than [null]: the last member
    with that name of an object ([JSON.parse] lets a later duplicate key
    win); [undefined] ([None]) on an object without it and on numbers,
    booleans, strings and arrays, for the keys the handler reads. *)
Fixpoint lookup (key : string) (members : list (string * json)) : option json :=
  match members with
  | [] => None
  | (k, v) :: rest =>
      match lookup key rest with
      | Some v' => Some v'
      | None => if String.eqb k key then Some v else None
      end
  end.

Definition prop (eventData : json) (key : string) : option json :=
  match eventData with
  | JObject members => lookup key members
  | _ => None
  end.

(** A field read as a [JsVal]; [None] when it holds a number, a boolean,
    an array or an object, which the typed wire format excludes. *)
Definition typed (field : option json) : option JsVal :=
  match field with
  | None => Some undefined
  | Some JNull => Some null
  | Some (JString s) => Some (str s)
  | Some _ => None
  end.

(* ------------------------------------------------------------------ *)
(** ** A JSON reader for the frames of the examples

    The handler is verified for every [JSON.parse] (a parameter of the
    development below).  The examples need one that runs: [JSON.parse]
    here follows the JSON grammar on texts of code units below 256 (white
    space, the three literals, numbers, strings with their escapes, arrays,
    objects), and answers [None] where the runtime's parser throws a
    SyntaxError.  An escape [\uXXXX] above 00FF has no code unit in this
    embedding of strings and is refused. *)

Module JSON.

Definition dquote : ascii := ascii_of_nat 34.
Definition backslash : ascii := ascii_of_nat 92.

Definition isWs (c : ascii) : bool :=
  let n := nat_of_ascii c in
  (n =? 32)%nat || (n =? 9)%nat || (n =? 10)%nat || (n =? 13)%nat.

Definition isDigit (c : ascii) : bool :=
  let n := nat_of_ascii c in (48 <=? n)%nat && (n <=? 57)%nat.

Fixpoint skipWs (s : string) : string :=
  match s with
  | String c r => if isWs c then skipWs r else s
  | EmptyString => EmptyString
  end.

(** The longest prefix of digits, and what follows it. *)
Fixpoint digits (s : string) : string * string :=
  match s with
  | String c r =>
      if isDigit c then let (ds, rest) := digits r in (String c ds, rest)
      else (EmptyString, s)
  | EmptyString => (EmptyString, EmptyString)
  end.

Definition hexValue (c : ascii) : option nat :=
  let n := nat_of_ascii c in
  if isDigit c then Some (n - 48)
  else if (65 <=? n)%nat && (n <=? 70)%nat then Some (n - 55)
  else if (97 <=? n)%nat && (n <=? 102)%nat then Some (n - 87)
  else None.

Definition hex4 (a b c d : ascii) : option nat :=
  match hexValue a, hexValue b, hexValue c, hexValue d with
  | Some x, Some y, Some z, Some w => Some (((x * 16 + y) * 16 + z) * 16 + w)
  | _, _, _, _ => None
  end.

(** The two-character escapes. *)
Definition escape (c : ascii) : option ascii :=
  let n := nat_of_ascii c in
  if (n =? 34)%nat || (n =? 92)%nat || (n =? 47)%nat then Some c
  else if (n =? 98)%nat then Some (ascii_of_nat 8)
  else if (n =? 102)%nat then Some (ascii_of_nat 12)
  else if (n =? 110)%nat then Some (ascii_of_nat 10)
  else if (n =? 114)%nat then Some (ascii_of_nat 13)
  else if (n =? 116)%nat then Some (ascii_of_nat 9)
  else None.

(** The characters of a string literal after its opening quote, up to the
    closing one, and what follows it. *)
Fixpoint stringBody (s : string) : option (string * string) :=
  match s with
  | EmptyString => None
  | String c r =>
      if Ascii.eqb c dquote then Some (EmptyString, r)
      else if Ascii.eqb c backslash then
        match r with
        | String e r1 =>
            if Ascii.eqb e "u"%char then
              match r1 with
              | String h1 (String h2 (String h3 (String h4 r2))) =>
                  match hex4 h1 h2 h3 h4 with
                  | Some n =>
                      if (n <? 256)%nat then
                        match stringBody r2 with
                        | Some (body, rest) => Some (String (ascii_of_nat n) body, rest)
                        | None => None
                        end
                      else None
                  | None => None
                  end
              | _ => None
              end
            else
              match escape e with
              | Some x =>
                  match stringBody r1 with
                  | Some (body, rest) => Some (String x body, rest)
                  | None => None
                  end
              | None => None
              end
        | EmptyString => None
        end
      else if (nat_of_ascii c <? 32)%nat then None
      else
        match stringBody r with
        | Some (body, rest) => Some (String c body, rest)
        | None => None
        end
  end.

(** [. digit+], or nothing. *)
Definition fraction (s : string) : option (string * string) :=
  match s with
  | String c r =>
      if Ascii.eqb c "."%char then
        match digits r with
        | (EmptyString, _) => None
        | (ds, rest) => Some (String c ds, rest)
        end
      else Some (EmptyString, s)
  | EmptyString => Some (EmptyString, s)
  end.

(** [(e|E) (+|-)? digit+], or nothing. *)
Definition exponent (s : string) : option (string * string) :=
  match s with
  | String c r =>
      if Ascii.eqb c "e"%char || Ascii.eqb c "E"%char then
        let (sign, r1) :=
          match r with
          | String x r' =>
              if Ascii.eqb x "+"%char || Ascii.eqb x "-"%char
              then (String x EmptyString, r') else (EmptyString, r)
          | EmptyString => (EmptyString, r)
          end in
        match digits r1 with
        | (EmptyString, _) => None
        | (ds, rest) => Some (String c (sign ++ ds)%string, rest)
        end
      else Some (EmptyString, s)
  | EmptyString => Some (EmptyString, s)
  end.

(** A number after its optional minus sign: [0] or a digit string without
    a leading zero, then the optional fraction and exponent. *)
Definition unsignedNumber (s : string) : option (string * string) :=
  match s with
  | String c r =>
      if isDigit c then
        let (int, r1) :=
          if Ascii.eqb c "0"%char then (String c EmptyString, r)
          else let (ds, rest) := digits r in (String c ds, rest) in
        match fraction r1 with
        | Some (frac, r2) =>
            match exponent r2 with
            | Some (exp, r3) => Some ((int ++ frac ++ exp)%string, r3)
            | None => None
            end
        | None => None
        end
      else None
  | EmptyString => None
  end.

Definition number (s : string) : option (string * string) :=
  match s with
  | String c r =>
      if Ascii.eqb c "-"%char then
        match unsignedNumber r with
        | Some (lit, rest) => Some (String c lit, rest)
        | None => None
        end
      else unsignedNumber s
  | EmptyString => None
  end.

(** [keyword w v s]: [s] starts with the literal [w], which stands for [v]. *)
Definition keyword (w : string) (v : json) (s : string) : option (json * string) :=
  if String.prefix w s then Some (v, JS.slice (String.length w) s) else None.

(** One value, the elements of an array after its first bracket, and the
    members of an object after its first brace; [fuel] bounds the number
    of nested calls, which the length of the text bounds in turn. *)
Fixpoint value (fuel : nat) (s : string) {struct fuel} : option (json * string) :=
  match fuel with
  | O => None
  | S fuel' =>
      match skipWs s with
      | EmptyString => None
      | String c r =>
          if Ascii.eqb c "{"%char then
            match skipWs r with
            | String c' r' =>
                if Ascii.eqb c' "}"%char then Some (JObject [], r')
                else match members fuel' r with
                     | Some (ms, rest) => Some (JObject ms, rest)
                     | None => None
                     end
            | EmptyString => None
            end
          else if Ascii.eqb c "["%char then
            match skipWs r with
            | String c' r' =>
                if Ascii.eqb c' "]"%char then Some (JArray [], r')
                else match elements fuel' r with
                     | Some (vs, rest) => Some (JArray vs, rest)
                     | None => None
                     end
            | EmptyString => None
            end
          else if Ascii.eqb c dquote then
            match stringBody r with
            | Some (body, rest) => Some (JString body, rest)
            | None => None
            end
          else if Ascii.eqb c "t"%char then keyword "true" (JBool true) (String c r)
          else if Ascii.eqb c "f"%char then keyword "false" (JBool false) (String c r)
          else if Ascii.eqb c "n"%char then keyword "null" JNull (String c r)
          else
            match number (String c r) with
            | Some (lit, rest) => Some (JNumber lit, rest)
            | None => None
            end
      end
  end

with elements (fuel : nat) (s : string) {struct fuel} : option (list json * string) :=
  match fuel with
  | O => None
  | S fuel' =>
      match value fuel' s with
      | Some (v, r) =>
          match skipWs r with
          | String c r' =>
              if Ascii.eqb c ","%char then
                match elements fuel' r' with
                | Some (vs, rest) => Some (v :: vs, rest)
                | None => None
                end
              else if Ascii.eqb c "]"%char then Some ([v], r')
              else None
          | EmptyString => None
          end
      | None => None
      end
  end

with members (fuel : nat) (s : string) {struct fuel} : option (list (string * json) * string) :=
  match fuel with
  | O => None
  | S fuel' =>
      match skipWs s with
      | String q r =>
          if Ascii.eqb q dquote then
            match stringBody r with
            | Some (key, r1) =>
                match skipWs r1 with
                | String colon r2 =>
                    if Ascii.eqb colon ":"%char then
                      match value fuel' r2 with
                      | Some (v, r3) =>
                          match skipWs r3 with
                          | String c r4 =>
                              if Ascii.eqb c ","%char then
                                match members fuel' r4 with
                                | Some (ms, rest) => Some ((key, v) :: ms, rest)
                                | None => None
                                end
                              else if Ascii.eqb c "}"%char then Some ([(key, v)], r4)
                              else None
                          | EmptyString => None
                          end
                      | None => None
                      end
                    else None
                | EmptyString => None
                end
            | None => None
            end
          else None
      | EmptyString => None
      end
  end.

(** [JSON.parse(text)]: one value, with nothing but white space around it. *)
Definition parse (text : string) : option json :=
  match value (2 * String.length text + 2) text with
  | Some (v, rest) =>
      match skipWs rest with
      | EmptyString => Some v
      | String _ _ => None
      end
  | None => None
  end.

(** Frames are written with an apostrophe where the wire has a double
    quote: [quoted] puts the double quotes back. *)
Fixpoint quoted (s : string) : string :=
  match s with
  | EmptyString => EmptyString
  | String c r => String (if Ascii.eqb c "'"%char then dquote else c) (quoted r)
  end.

End JSON.

(* ------------------------------------------------------------------ *)
(** ** Conversation data *)

Inductive Sender : Type := user | ai.

Record Message : Type := mkMessage {
  id : string;
  text : string;
  sender : Sender
}.

(** The events of the stream, by the [type] of the payload, each with the
    fields the handler reads. *)
Inductive Event : Type :=
| Connected (session_id : JsVal)
| Status (message : JsVal)
| Content (delta : JsVal)
| AgentComplete (agent : JsVal)
| Transition (from_agent to_agent message : JsVal)
| Complete
| Done
| Error (message : JsVal).

(** The React state of [App] that the handler reads or writes. *)
Record App : Type := mkApp {
  hasStarted : bool;
  inputValue : string;
  messages : list Message;
  isTyping : bool;
  sessionId : option string
}.

(** A call of the handler in progress: the React state, and the [let]
    variables of the call. *)
Record Turn : Type := mkTurn {
  app : App;
  completeResponse : string;
  currentAgentContent : string;
  aiMessageAdded : bool
}.

Definition App_setHasStarted (b : bool) (a : App) : App :=
  mkApp b (inputValue a) (messages a) (isTyping a) (sessionId a).

Definition App_setInputValue (v : string) (a : App) : App :=
  mkApp (hasStarted a) v (messages a) (isTyping a) (sessionId a).

(** [setMessages((prev) => f(prev))]. *)
Definition App_setMessages (f : list Message -> list Message) (a : App) : App :=
  mkApp (hasStarted a) (inputValue a) (f (messages a)) (isTyping a) (sessionId a).

Definition App_setIsTyping (b : bool) (a : App) : App :=
  mkApp (hasStarted a) (inputValue a) (messages a) b (sessionId a).

Definition App_setSessionId (v : option string) (a : App) : App :=
  mkApp (hasStarted a) (inputValue a) (messages a) (isTyping a) v.

(** The setters, called inside a turn. *)
Definition onApp (f : App -> App) (t : Turn) : Turn :=
  mkTurn (f (app t)) (completeResponse t) (currentAgentContent t) (aiMessageAdded t).

Definition setMessages (f : list Message -> list Message) : Turn -> Turn :=
  onApp (App_setMessages f).

Definition setIsTyping (b : bool) : Turn -> Turn := onApp (App_setIsTyping b).

Definition setSessionId (v : option string) : Turn -> Turn := onApp (App_setSessionId v).

Definition set_completeResponse (v : string) (t : Turn) : Turn :=
  mkTurn (app t) v (currentAgentContent t) (aiMessageAdded t).

Definition set_currentAgentContent (v : string) (t : Turn) : Turn :=
  mkTurn (app t) (completeResponse t) v (aiMessageAdded t).

Definition set_aiMessageAdded (b : bool) (t : Turn) : Turn :=
  mkTurn (app t) (completeResponse t) (currentAgentContent t) b.

(** The body of the POST that opens a turn. *)
Record Request : Type := mkRequest {
  path : string;
  message : string;
  session_id : option string
}.

(** How the transport behaves during one call: [fetch] rejects, answers
    with a status that is not ok, answers without a body to read, or
    answers with a body whose reader delivers the (decoded) chunks and then
    either reports the end of the stream or rejects. *)
Inductive StreamEnd : Type := EndOfStream | ReadRejected.

Inductive Transport : Type :=
| FetchRejected
| NotOk (status : Z)
| NoBody
| Body (chunks : list string) (ending : StreamEnd).

(** ToBoolean of the [sessionId] state ([string | null]). *)
Definition bound (sessionId : option string) : bool :=
  match sessionId with
  | Some s => JS.truthy s
  | None => false
  end.

(** What becomes of a parsed payload at the [switch]. *)
Inductive Dispatch : Type :=
| Throws                 (* reading [eventData.type] throws: [eventData] is null *)
| NoCase                 (* no [case] is the payload's [type] *)
| IllTyped               (* a field read by the case is outside [JsVal] *)
| Dispatched (e : Event).

Definition field (eventData : json) (key : string) (k : JsVal -> Dispatch) : Dispatch :=
  match typed (prop eventData key) with
  | Some v => k v
  | None => IllTyped
  end.

(** [switch (eventData.type)]: the cases compare with [===], so only a
    string selects one. *)
Definition readEvent (eventData : json) : Dispatch :=
  match eventData with
  | JNull => Throws
  | _ =>
      match prop eventData "type" with
      | Some (JString type) =>
          if type =? "connected" then
            field eventData "session_id" (fun v => Dispatched (Connected v))
          else if type =? "status" then
            field eventData "message" (fun v => Dispatched (Status v))
          else if type =? "content" then
            field eventData "delta" (fun v => Dispatched (Content v))
          else if type =? "agent_complete" then
            field eventData "agent" (fun v => Dispatched (AgentComplete v))
          else if type =? "transition" then
            field eventData "from_agent" (fun from_agent =>
            field eventData "to_agent" (fun to_agent =>
            field eventData "message" (fun v =>
              Dispatched (Transition from_agent to_agent v))))
          else if type =? "complete" then Dispatched Complete
          else if type =? "done" then Dispatched Done
          else if type =? "error" then
            field eventData "message" (fun v => Dispatched (Error v))
          else NoCase
      | _ => NoCase
      end
  end.

Definition errorFallback : string := "An error occurred during processing.".

Definition errorText : string :=
  "Sorry, I encountered an error connecting to the backend. Please check the console for details.".

(* ------------------------------------------------------------------ *)
(** ** The streamed turn *)

Section Turn.

(** The closure of one call: the identifier made for the reply, and the
    [sessionId] the handler was created with.  [setSessionId] changes the
    state of [App], never this constant. *)
Variable aiMsgId : string.
Variable sessionId0 : option string.

(** The block the cases [agent_complete], [transition] and [complete]
    share: add the reply the first time, rewrite its text afterwards. *)
Definition commit (t : Turn) : Turn :=
  if aiMessageAdded t then
    setMessages
      (map (fun m => if id m =? aiMsgId
                     then mkMessage (id m) (completeResponse t) (sender m)
                     else m)) t
  else
    set_aiMessageAdded true
      (setMessages (fun prev => prev ++ [mkMessage aiMsgId (completeResponse t) ai]) t).

(** One [case] of the [switch]. *)
Definition handleEvent (eventData : Event) (t : Turn) : Turn :=
  match eventData with
  | Connected session_id =>
      if negb (bound sessionId0) && truthy session_id
      then setSessionId (Some (toString session_id)) t
      else t
  | Status _ => setIsTyping true t
  | Content delta =>
      set_currentAgentContent (currentAgentContent t ++ toString delta) t
  | AgentComplete _ =>
      let t1 := set_completeResponse (completeResponse t ++ currentAgentContent t) t in
      set_currentAgentContent EmptyString (commit t1)
  | Transition _ _ message =>
      if truthy message
      then commit (set_completeResponse (completeResponse t ++ toString message) t)
      else t
  | Complete =>
      setIsTyping false
        (if JS.truthy (currentAgentContent t)
         then commit (set_completeResponse (completeResponse t ++ currentAgentContent t) t)
         else t)
  | Done => setIsTyping false t
  | Error message =>
      setIsTyping false
        (if aiMessageAdded t then t
         else setMessages
                (fun prev => prev ++ [mkMessage aiMsgId (orElse message errorFallback) ai]) t)
  end.

(** The events of a stream, in order. *)
Definition runEvents (events : list Event) (t : Turn) : Turn :=
  fold_left (fun t e => handleEvent e t) events t.

(** The [catch] of the handler. *)
Definition catchError (t : Turn) : Turn :=
  let errorMsg := mkMessage aiMsgId errorText ai in
  setIsTyping false
    (if aiMessageAdded t
     then setMessages (map (fun m => if id m =? aiMsgId then errorMsg else m)) t
     else setMessages (fun prev => prev ++ [errorMsg]) t).

Section Reader.

(** [JSON.parse]: [None] where it throws. *)
Variable JSON_parse : string -> option json.

(** The body of [for (const line of lines)].  A line without the prefix
    is passed over; a payload that does not parse, or whose [type] cannot
    be read, ends in the inner [catch], which only logs.  [None] marks a
    payload outside the typed wire format. *)
Definition processLine (line : string) (t : Turn) : option Turn :=
  if JS.startsWith "data: " line then
    match JSON_parse (JS.slice 6 line) with
    | Some eventData =>
        match readEvent eventData with
        | Dispatched e => Some (handleEvent e t)
        | IllTyped => None
        | Throws | NoCase => Some t
        end
    | None => Some t
    end
  else Some t.

Fixpoint processLines (lines : list string) (t : Turn) : option Turn :=
  match lines with
  | [] => Some t
  | line :: rest =>
      match processLine line t with
      | Some t' => processLines rest t'
      | None => None
      end
  end.

(** The body of [while (true)] for one chunk: decode, split, dispatch. *)
Definition processChunk (chunk : string) (t : Turn) : option Turn :=
  processLines (JS.split chunk) t.

(** The chunks the reader delivers before it ends. *)
Fixpoint readLoop (chunks : list string) (t : Turn) : option Turn :=
  match chunks with
  | [] => Some t
  | chunk :: rest =>
      match processChunk chunk t with
      | Some t' => readLoop rest t'
      | None => None
      end
  end.

End Reader.

End Turn.

(** [handleSendMessage], streamed: the state of [App] after the call and
    the requests it issued, given the two readings of the clock and the
    behaviour of the transport.  [None] marks a stream with a payload
    outside the typed wire format. *)
Definition handleSendMessage (JSON_parse : string -> option json)
    (now1 now2 : Z) (net : Transport) (a : App) : option (App * list Request) :=
  if negb (JS.truthy (JS.trim (inputValue a))) then Some (a, [])
  else
    let userMsg := mkMessage (JS.Number_toString now1) (inputValue a) user in
    let a1 := App_setMessages (fun prev => prev ++ [userMsg]) a in
    let messageText := inputValue a in
    let a2 := App_setIsTyping true (App_setHasStarted true (App_setInputValue EmptyString a1)) in
    let aiMsgId := JS.Number_toString (now2 + 1) in
    let t0 := mkTurn a2 EmptyString EmptyString false in
    let request := mkRequest "/api/chat/stream" messageText (sessionId a) in
    match net with
    | Body chunks ending =>
        match readLoop aiMsgId (sessionId a) JSON_parse chunks t0 with
        | Some t =>
            Some (app (match ending with
                       | EndOfStream => setIsTyping false t
                       | ReadRejected => catchError aiMsgId t
                       end), [request])
        | None => None
        end
    | FetchRejected | NotOk _ | NoBody => Some (app (catchError aiMsgId t0), [request])
    end.

(* ------------------------------------------------------------------ *)
(** ** The single-reply handler of [frontend/src/App.tsx] *)

Module Sync.

(** How the transport behaves during one call: [fetch] rejects, answers
    with a status that is not ok, answers with a body [response.json()]
    rejects, or answers with a body that parses to [data]. *)
Inductive Answer : Type :=
| Rejected
| Refused (status : Z)
| Unreadable
| Data (data : json).

(** [handleSendMessage], single reply.  [None] marks a reply outside the
    typed wire format: a [session_id] outside [JsVal], or a [reply] that is
    not a string. *)
Definition handleSendMessage (now1 now2 : Z) (net : Answer) (a : App)
  : option (App * list Request) :=
  if negb (JS.truthy (JS.trim (inputValue a))) then Some (a, [])
  else
    let userMsg := mkMessage (JS.Number_toString now1) (inputValue a) user in
    let a1 := App_setMessages (fun prev => prev ++ [userMsg]) a in
    let messageText := inputValue a in
    let a2 := App_setIsTyping true (App_setHasStarted true (App_setInputValue EmptyString a1)) in
    let request := mkRequest "/api/chat" messageText (sessionId a) in
    let errorMsg := mkMessage (JS.Number_toString (now2 + 1)) errorText ai in
    let caught := App_setIsTyping false (App_setMessages (fun prev => prev ++ [errorMsg]) a2) in
    match net with
    | Data JNull => Some (caught, [request])
    | Data data =>
        match typed (prop data "session_id"), prop data "reply" with
        | Some session_id, Some (JString reply) =>
            let a3 :=
              if negb (bound (sessionId a)) && truthy session_id
              then App_setSessionId (Some (toString session_id)) a2
              else a2 in
            let aiMsg := mkMessage (JS.Number_toString (now2 + 1)) reply ai in
            Some (App_setIsTyping false (App_setMessages (fun prev => prev ++ [aiMsg]) a3),
                  [request])
        | _, _ => None
        end
    | Rejected | Refused _ | Unreadable => Some (caught, [request])
    end.

End Sync.

(* ------------------------------------------------------------------ *)
(** ** Notions the properties are stated with *)

(** The turn as the handler starts it: nothing committed, nothing buffered. *)
Definition startTurn (a : App) : Turn := mkTurn a EmptyString EmptyString false.

(** [App] once the handler has taken the input: the question appended,
    the input emptied, typing on. *)
Definition submitted (now1 : Z) (a : App) : App :=
  App_setIsTyping true
    (App_setHasStarted true
       (App_setInputValue EmptyString
          (App_setMessages
             (fun prev => prev ++ [mkMessage (JS.Number_toString now1) (inputValue a) user])
             a))).

(** The transport fails: anything but a stream read to its end. *)
Definition fails (net : Transport) : Prop :=
  match net with
  | Body _ EndOfStream => False
  | _ => True
  end.

(** The event runs the commit block in state [t]. *)
Definition commits (e : Event) (t : Turn) : bool :=
  match e with
  | AgentComplete _ => true
  | Transition _ _ message => truthy message
  | Complete => JS.truthy (currentAgentContent t)
  | _ => false
  end.

(** The reply of the turn is in the conversation once the flag says so. *)
Definition replyShown (aiMsgId : string) (t : Turn) : Prop :=
  aiMessageAdded t = true ->
  exists m, In m (messages (app t)) /\ id m = aiMsgId /\ sender m = ai.

(** No message of the conversation has this identifier yet. *)
Definition fresh (aiMsgId : string) (msgs : list Message) : Prop :=
  forall m, In m msgs -> id m <> aiMsgId.

(** The [type]s the [switch] has a [case] for. *)
Definition eventTypes : list string :=
  ["connected"; "status"; "content"; "agent_complete"; "transition";
   "complete"; "done"; "error"].

Definition recognisedType (eventData : json) : bool :=
  match prop eventData "type" with
  | Some (JString type) => existsb (String.eqb type) eventTypes
  | _ => false
  end.

(** A line that carries the data prefix and a payload that does not parse
    or has no recognised [type]. *)
Definition malformed (JSON_parse : string -> option json) (line : string) : Prop :=
  JS.startsWith "data: " line = true /\
  match JSON_parse (JS.slice 6 line) with
  | Some eventData => recognisedType eventData = false
  | None => True
  end.

(** A line whose payload, if it has one with a recognised [type], keeps to
    the typed wire format. *)
Definition lineTyped (JSON_parse : string -> option json) (line : string) : bool :=
  if JS.startsWith "data: " line then
    match JSON_parse (JS.slice 6 line) with
    | Some eventData =>
        match readEvent eventData with
        | IllTyped => false
        | _ => true
        end
    | None => true
    end
  else true.

Definition transportTyped (JSON_parse : string -> option json) (net : Transport) : Prop :=
  match net with
  | Body chunks _ => forallb (lineTyped JSON_parse) (flat_map JS.split chunks) = true
  | _ => True
  end.

Fixpoint allWhiteSpace (s : string) : bool :=
  match s with
  | EmptyString => true
  | String c r => JS.isWhiteSpace c && allWhiteSpace r
  end.

(** The text holds a line feed. *)
Fixpoint hasLF (s : string) : bool :=
  match s with
  | EmptyString => false
  | String c r => Ascii.eqb c JS.LF || hasLF r
  end.

(** The conversation of a turn that has met no [error] event: the
    messages it started with, then the reply once it is committed, with
    the committed text. *)
Definition oneReply (aiMsgId : string) (history : list Message) (t : Turn) : Prop :=
  messages (app t) =
    history ++ (if aiMessageAdded t
                then [mkMessage aiMsgId (completeResponse t) ai] else []).

(** Some event of the run commits. *)
Fixpoint anyCommit (aiMsgId : string) (sessionId0 : option string)
    (events : list Event) (t : Turn) : bool :=
  match events with
  | [] => false
  | e :: rest =>
      commits e t || anyCommit aiMsgId sessionId0 rest (handleEvent aiMsgId sessionId0 e t)
  end.

Definition isError (e : Event) : bool :=
  match e with
  | Error _ => true
  | _ => false
  end.

(** One frame of the wire: the payload after the data prefix, and a line
    feed; written with apostrophes for the double quotes. *)
Definition frame (payload : string) : string :=
  ("data: " ++ JSON.quoted payload ++ String JS.LF EmptyString)%string.

(** [App] with a question typed in, and once the question is sent. *)
Definition asking (question : string) : App := mkApp false question [] false None.

Definition awaiting : App :=
  mkApp true EmptyString [mkMessage "1000" "hi" user] true None.

(* ------------------------------------------------------------------ *)
(** ** The rest of [App]: health check, keyboard, send button *)

Module Health.

(** The [healthStatus] state. *)
Inductive Status : Type := loading | ok | error.

Definition Status_eqb (x y : Status) : bool :=
  match x, y with
  | loading, loading | ok, ok | error, error => true
  | _, _ => false
  end.

(** How the GET of the health endpoint ends: [fetch] rejects, the status
    is not ok, [resp.json()] rejects, or the body parses to [data]. *)
Inductive Answer : Type :=
| Rejected
| Refused (status : Z)
| Unreadable
| Data (data : json).

(** [checkHealth], from the answer on: [cancelled] is the flag the
    cleanup of the effect raises.  Reading [data.status] of [null] throws
    into the [catch]; the comparison with ['ok'] is [===]. *)
Definition checkHealth (cancelled : bool) (net : Answer) (healthStatus : Status) : Status :=
  match net with
  | Data data =>
      if cancelled then healthStatus
      else
        match data with
        | JNull => error
        | _ =>
            match prop data "status" with
            | Some (JString status) => if status =? "ok" then ok else error
            | _ => error
            end
        end
  | Rejected | Refused _ | Unreadable =>
      if cancelled then healthStatus else error
  end.

(** The [disabled] attribute of the send button and of the text area, and
    the placeholder of the text area. *)
Definition sendDisabled (inputValue : string) (healthStatus : Status) : bool :=
  negb (JS.truthy (JS.trim inputValue)) || negb (Status_eqb healthStatus ok).

Definition textareaDisabled (healthStatus : Status) : bool :=
  negb (Status_eqb healthStatus ok).

Definition placeholder (healthStatus : Status) : string :=
  if Status_eqb healthStatus ok then "Start by describing your service..."
  else if Status_eqb healthStatus loading then "Connecting to backend..."
  else "Backend unavailable. Please check connection.".

End Health.

(** The part of a keyboard event [handleKeyDown] reads. *)
Record KeyboardEvent : Type := mkKeyboardEvent {
  key : string;
  shiftKey : bool
}.

(** [handleKeyDown], for a given [handleSendMessage]: whether
    [preventDefault] was called, and what the call of the handler, if
    any, returned ([Some (a, [])] when it was not called). *)
Definition handleKeyDown (handleSendMessage : App -> option (App * list Request))
    (e : KeyboardEvent) (a : App) : bool * option (App * list Request) :=
  if (key e =? "Enter") && negb (shiftKey e)
  then (true, handleSendMessage a)
  else (false, Some (a, [])).

(** The last identifier a [connected] event of the list supplies. *)
Fixpoint lastSupplied (events : list Event) : option string :=
  match events with
  | [] => None
  | e :: rest =>
      match lastSupplied rest with
      | Some s => Some s
      | None =>
          match e with
          | Connected session_id =>
              if truthy session_id then Some (toString session_id) else None
          | _ => None
          end
      end
  end.

(** A reply of the turn: a message with the turn's identifier, from ai. *)
Definition isReply (aiMsgId : string) (m : Message) : Prop :=
  id m = aiMsgId /\ sender m = ai.

(** The conversation is the history, then replies of the turn. *)
Definition historyKept (aiMsgId : string) (history msgs : list Message) : Prop :=
  exists added, msgs = history ++ added /\ Forall (isReply aiMsgId) added.

(** The chunk ends with a line feed. *)
Fixpoint endsWithLF (chunk : string) : bool :=
  match chunk with
  | EmptyString => false
  | String c EmptyString => Ascii.eqb c JS.LF
  | String _ r => endsWithLF r
  end.

(** A reply of the single-reply handler within the typed wire format: a
    [session_id] inside [JsVal] and a string for [reply], or [null]. *)
Definition answerTyped (net : Sync.Answer) : bool :=
  match net with
  | Sync.Data JNull => true
  | Sync.Data data =>
      match typed (prop data "session_id"), prop data "reply" with
      | Some _, Some (JString _) => true
      | _, _ => false
      end
  | _ => true
  end.

(** The session a reply of the single-reply handler supplies. *)
Definition suppliedSession (net : Sync.Answer) : option string :=
  match net with
  | Sync.Data data =>
      match typed (prop data "session_id") with
      | Some session_id =>
          if truthy session_id then Some (toString session_id) else None
      | None => None
      end
  | _ => None
  end.

(** The backend answered the health check with a body whose [status] is
    the string ok. *)
Definition saidOk (net : Health.Answer) : Prop :=
  exists data, net = Health.Data data /\ prop data "status" = Some (JString "ok").

(** The chunks, one after the other. *)
Definition joined (chunks : list string) : string :=
  fold_right String.append EmptyString chunks.

(** The text of the ai message the single-reply handler adds. *)
Definition replyText (net : Sync.Answer) : string :=
  match net with
  | Sync.Data data =>
      match prop data "reply" with
      | Some (JString reply) => reply
      | _ => errorText
      end
  | _ => errorText
  end.

(* ------------------------------------------------------------------ *)
(** ** The edges of the decorative graph *)

Module Graph.

Import QArith_base.

(** An edge, by the indices of its two nodes. *)
Record Edge : Type := mkEdge {
  start : nat;
  end_ : nat
}.

Section Edges.

(** [n] is the number of images, hence of nodes.  The coordinates of the
    nodes are floating-point numbers; the edges depend on them through
    the squared distances only, and [dist i idx] stands for the one the
    loop of node [i] computes for node [idx]: a finite double, that is, a
    rational, which the comparator [a.dist - b.dist] orders as such. *)
Variable n : nat.
Variable dist : nat -> nat -> Q.

(** [nodes.map((n, idx) => ({ idx, dist })).filter(item => item.idx !== i)]. *)
Definition others (i : nat) : list (nat * Q) :=
  filter (fun item => negb (fst item =? i)%nat)
         (map (fun idx => (idx, dist i idx)) (seq 0 n)).

(** [.sort((a, b) => a.dist - b.dist)]: ascending in [dist], items of
    equal [dist] in the order they had. *)
Fixpoint insert (x : nat * Q) (sorted : list (nat * Q)) : list (nat * Q) :=
  match sorted with
  | [] => [x]
  | y :: rest =>
      if Qle_bool (snd x) (snd y) then x :: sorted else y :: insert x rest
  end.

Definition sort (items : list (nat * Q)) : list (nat * Q) :=
  fold_right insert [] items.

(** [distances]: the sorted items, [.slice(0, 4)]. *)
Definition distances (i : nat) : list (nat * Q) := firstn 4 (sort (others i)).

(** [edges.some(e => (e.start === i && e.end === d.idx) ||
                    (e.start === d.idx && e.end === i))]. *)
Definition edgeExists (edges : list Edge) (i idx : nat) : bool :=
  existsb (fun e => (start e =? i)%nat && (end_ e =? idx)%nat
                    || (start e =? idx)%nat && (end_ e =? i)%nat) edges.

(** The body of [distances.forEach]. *)
Definition connect (i : nat) (edges : list Edge) (d : nat * Q) : list Edge :=
  if edgeExists edges i (fst d) then edges else edges ++ [mkEdge i (fst d)].

(** The [edges] of [generateGraph]. *)
Definition generateGraph_edges : list Edge :=
  fold_left (fun edges i => fold_left (connect i) (distances i) edges) (seq 0 n) [].

End Edges.

(** The two edges join the same two nodes. *)
Definition sameLink (e1 e2 : Edge) : Prop :=
  (start e1 = start e2 /\ end_ e1 = end_ e2) \/
  (start e1 = end_ e2 /\ end_ e1 = start e2).

(** The edge joins two different nodes among the [n]. *)
Definition wellFormed (n : nat) (e : Edge) : Prop :=
  (start e < n)%nat /\ (end_ e < n)%nat /\ start e <> end_ e.

(** Some edge of the list joins nodes [i] and [idx]. *)
Definition linked (edges : list Edge) (i idx : nat) : Prop :=
  exists e, In e edges /\ sameLink e (mkEdge i idx).

(** Nodes on a line, one unit apart. *)
Definition onALine (i idx : nat) : Q :=
  let d := (Z.of_nat i - Z.of_nat idx)%Z in inject_Z (d * d).

End Graph.

(* ------------------------------------------------------------------ *)
(** ** Events between a content event and its flush; events of a stream *)

(** The event publishes the buffer: [agent_complete], and [complete]. *)
Definition flushes (e : Event) : bool :=
  match e with
  | AgentComplete _ | Complete => true
  | _ => false
  end.

(** What the [content] events of the list add to the buffer. *)
Fixpoint buffered (events : list Event) : string :=
  match events with
  | [] => EmptyString
  | Content delta :: rest => (toString delta ++ buffered rest)%string
  | _ :: rest => buffered rest
  end.

(** The event a line dispatches, if any: none for a line without the
    prefix, with a payload that does not parse, or without a case. *)
Definition lineEvents (JSON_parse : string -> option json) (line : string) : list Event :=
  if JS.startsWith "data: " line then
    match JSON_parse (JS.slice 6 line) with
    | Some eventData =>
        match readEvent eventData with
        | Dispatched e => [e]
        | _ => []
        end
    | None => []
    end
  else [].

(** The events the chunks of a stream dispatch, in order. *)
Definition streamEvents (JSON_parse : string -> option json) (chunks : list string)
  : list Event :=
  flat_map (lineEvents JSON_parse) (flat_map JS.split chunks).

(** The events a call receives before it ends: those of the chunks the
    reader delivered, none when there is no stream. *)
Definition received (JSON_parse : string -> option json) (net : Transport) : list Event :=
  match net with
  | Body chunks _ => streamEvents JSON_parse chunks
  | _ => []
  end.

(** The edges that start at node [i]. *)
Definition edgesFrom (i : nat) (edges : list Graph.Edge) : list Graph.Edge :=
  filter (fun e => (Graph.start e =? i)%nat) edges.

(* ------------------------------------------------------------------ *)
(** ** Strings and lists *)

Lemma append_empty_r (s : string) : (s ++ EmptyString)%string = s.
Proof.
  induction s as [|c r IH]; simpl; [reflexivity | now rewrite IH].
Qed.

Lemma append_associative (s1 s2 s3 : string) :
  (s1 ++ (s2 ++ s3))%string = ((s1 ++ s2) ++ s3)%string.
Proof.
  induction s1 as [|c r IH]; simpl; [reflexivity | now rewrite IH].
Qed.

Lemma truthy_empty (s : string) : JS.truthy s = false <-> s = EmptyString.
Proof.
  destruct s; simpl; split; intros H; congruence.
Qed.

(** Rewriting the messages with one identifier leaves a conversation
    without that identifier as it is. *)
Lemma map_fresh (aiMsgId : string) (f : Message -> Message) (msgs : list Message) :
  fresh aiMsgId msgs ->
  map (fun m => if id m =? aiMsgId then f m else m) msgs = msgs.
Proof.
  induction msgs as [|m rest IH]; intros Hfresh; simpl; [reflexivity|].
  assert (Hm : id m <> aiMsgId) by (apply Hfresh; now left).
  apply String.eqb_neq in Hm. rewrite Hm. f_equal.
  apply IH. intros m' Hin. apply Hfresh. now right.
Qed.

(* ------------------------------------------------------------------ *)
(** ** The commit block and the events *)

Section TurnFacts.

Variable aiMsgId : string.
Variable sessionId0 : option string.


Lemma runEvents_app (evs1 evs2 : list Event) (t : Turn) :
  runEvents aiMsgId sessionId0 (evs1 ++ evs2) t =
  runEvents aiMsgId sessionId0 evs2 (runEvents aiMsgId sessionId0 evs1 t).
Proof. unfold runEvents. apply fold_left_app. Qed.

Lemma runEvents_cons (e : Event) (evs : list Event) (t : Turn) :
  runEvents aiMsgId sessionId0 (e :: evs) t =
  runEvents aiMsgId sessionId0 evs (handleEvent aiMsgId sessionId0 e t).
Proof. reflexivity. Qed.

(** The first commit of a turn appends the reply. *)
Lemma commit_first (t : Turn) :
  aiMessageAdded t = false ->
  commit aiMsgId t =
  mkTurn (App_setMessages (fun prev => prev ++ [mkMessage aiMsgId (completeResponse t) ai]) (app t))
         (completeResponse t) (currentAgentContent t) true.
Proof. intros H. unfold commit. now rewrite H. Qed.

(** A later commit touches the messages only. *)
Lemma commit_later (t : Turn) :
  aiMessageAdded t = true ->
  commit aiMsgId t =
  setMessages (map (fun m => if id m =? aiMsgId
                             then mkMessage (id m) (completeResponse t) (sender m)
                             else m)) t.
Proof. intros H. unfold commit. now rewrite H. Qed.

Lemma commit_locals (t : Turn) :
  completeResponse (commit aiMsgId t) = completeResponse t /\
  currentAgentContent (commit aiMsgId t) = currentAgentContent t /\
  aiMessageAdded (commit aiMsgId t) = true /\
  isTyping (app (commit aiMsgId t)) = isTyping (app t) /\
  sessionId (app (commit aiMsgId t)) = sessionId (app t).
Proof.
  unfold commit. destruct (aiMessageAdded t) eqn:E; simpl; auto.
Qed.

(** After a commit the conversation holds the reply with the committed
    text, provided the flag did not lie before. *)
Lemma commit_shows (t : Turn) :
  replyShown aiMsgId t ->
  In (mkMessage aiMsgId (completeResponse t) ai) (messages (app (commit aiMsgId t))).
Proof.
  intros Hshown. unfold commit.
  destruct (aiMessageAdded t) eqn:E; simpl.
  - destruct (Hshown E) as (m & Hin & Hid & Hsender).
    apply in_map_iff. exists m. split; [|assumption].
    rewrite <- Hid at 1. rewrite String.eqb_refl. now rewrite Hid, Hsender.
  - apply in_or_app. right. now left.
Qed.

Lemma replyShown_commit (t : Turn) :
  replyShown aiMsgId t -> replyShown aiMsgId (commit aiMsgId t).
Proof.
  intros Hshown _. exists (mkMessage aiMsgId (completeResponse t) ai).
  split; [now apply commit_shows | now split].
Qed.

(** [replyShown] only looks at the messages and the flag. *)
Lemma replyShown_ext (t t' : Turn) :
  messages (app t') = messages (app t) ->
  aiMessageAdded t' = aiMessageAdded t ->
  replyShown aiMsgId t -> replyShown aiMsgId t'.
Proof.
  unfold replyShown. intros Hm Hf H. rewrite Hm, Hf. exact H.
Qed.

Lemma replyShown_handleEvent (e : Event) (t : Turn) :
  replyShown aiMsgId t -> replyShown aiMsgId (handleEvent aiMsgId sessionId0 e t).
Proof.
  intros Hshown. destruct e as [sid|msg|delta|agent|from to msg| | |msg]; simpl.
  - destruct (negb (bound sessionId0) && truthy sid);
      [eapply replyShown_ext; [| |exact Hshown]; reflexivity | exact Hshown].
  - eapply replyShown_ext; [| |exact Hshown]; reflexivity.
  - eapply replyShown_ext; [| |exact Hshown]; reflexivity.
  - eapply replyShown_ext; [| |apply replyShown_commit]; try reflexivity.
    eapply replyShown_ext; [| |exact Hshown]; reflexivity.
  - destruct (truthy msg); [|exact Hshown].
    apply replyShown_commit. eapply replyShown_ext; [| |exact Hshown]; reflexivity.
  - destruct (JS.truthy (currentAgentContent t)).
    + eapply replyShown_ext; [| |apply replyShown_commit]; try reflexivity.
      eapply replyShown_ext; [| |exact Hshown]; reflexivity.
    + eapply replyShown_ext; [| |exact Hshown]; reflexivity.
  - eapply replyShown_ext; [| |exact Hshown]; reflexivity.
  - destruct (aiMessageAdded t) eqn:E.
    + eapply replyShown_ext; [| |exact Hshown]; reflexivity.
    + intros Hflag. simpl in Hflag. congruence.
Qed.

Lemma replyShown_runEvents (evs : list Event) (t : Turn) :
  replyShown aiMsgId t -> replyShown aiMsgId (runEvents aiMsgId sessionId0 evs t).
Proof.
  revert t. induction evs as [|e evs IH]; intros t Hshown; [exact Hshown|].
  rewrite runEvents_cons. apply IH. now apply replyShown_handleEvent.
Qed.

Lemma replyShown_start (a : App) : replyShown aiMsgId (startTurn a).
Proof. intros Hflag. discriminate Hflag. Qed.

End TurnFacts.

(** What [agent_complete] and [complete] publish: the committed text
    followed by the buffer. *)
Lemma flush_shows (aiMsgId : string) (t : Turn) :
  replyShown aiMsgId t ->
  In (mkMessage aiMsgId (completeResponse t ++ currentAgentContent t) ai)
     (messages (app (commit aiMsgId
        (set_completeResponse (completeResponse t ++ currentAgentContent t) t)))).
Proof.
  intros Hshown.
  apply (commit_shows aiMsgId
           (set_completeResponse (completeResponse t ++ currentAgentContent t) t)).
  eapply replyShown_ext; [| |exact Hshown]; reflexivity.
Qed.

Lemma orElse_spec (v : JsVal) (fallback : string) :
  orElse v fallback = if truthy v then toString v else fallback.
Proof. destruct v as [| |[|c r]]; reflexivity. Qed.

(* ------------------------------------------------------------------ *)
(** ** One reply per turn *)

(** C1, at the stream that breaks it.  When an [error] event comes before
    the first commit, the [error] case appends a message with the reply's
    identifier and leaves [aiMessageAdded] false, so the commit of the next
    [agent_complete] appends a second one: the conversation gains two ai
    messages with the same identifier.  First for every conversation and
    every error message, then for the handler run on the frames of such a
    stream. *)
Theorem error_before_commit_adds_two_replies :
  (forall (aiMsgId : string) (sessionId0 : option string) (a : App)
          (message agent : JsVal),
     messages (app (runEvents aiMsgId sessionId0
                      [Error message; Content (str "A"); AgentComplete agent; Done]
                      (startTurn a)))
     = messages a ++ [mkMessage aiMsgId (orElse message errorFallback) ai;
                      mkMessage aiMsgId "A" ai]) /\
  handleSendMessage JSON.parse 1000 1000
    (Body [frame "{'type':'error','message':'boom'}";
           frame "{'type':'content','delta':'A'}";
           frame "{'type':'agent_complete','agent':'x'}";
           frame "{'type':'done'}"] EndOfStream)
    (asking "hi")
  = Some (mkApp true EmptyString
            [mkMessage "1000" "hi" user;
             mkMessage "1001" "boom" ai;
             mkMessage "1001" "A" ai]
            false None,
          [mkRequest "/api/chat/stream" "hi" None]).
Proof.
  split.
  - intros aiMsgId sessionId0 a message agent.
    unfold runEvents, startTurn. simpl.
    rewrite <- app_assoc. reflexivity.
  - vm_compute. reflexivity.
Qed.

(* ------------------------------------------------------------------ *)
(** ** Withholding and flushing *)

(** C2 as stated fails when the next commit is that of a [transition]:
    the note is committed and the buffered delta stays out of the
    conversation. *)
Lemma transition_commit_keeps_delta_withheld :
  let received := handleEvent "1001" None (Content (str "X")) (startTurn awaiting) in
  let t := handleEvent "1001" None (Transition (str "a") (str "b") (str "T")) received in
  commits (Transition (str "a") (str "b") (str "T")) received = true /\
  messages (app t) = [mkMessage "1000" "hi" user; mkMessage "1001" "T" ai] /\
  currentAgentContent t = "X".
Proof. repeat split. Qed.

(** Two turns that differ in their buffers only. *)
Lemma nonflush_ignores_buffer (aiMsgId : string) (sessionId0 : option string)
    (e : Event) (t1 t2 : Turn) :
  flushes e = false ->
  app t1 = app t2 ->
  completeResponse t1 = completeResponse t2 ->
  aiMessageAdded t1 = aiMessageAdded t2 ->
  app (handleEvent aiMsgId sessionId0 e t1) = app (handleEvent aiMsgId sessionId0 e t2) /\
  completeResponse (handleEvent aiMsgId sessionId0 e t1) =
    completeResponse (handleEvent aiMsgId sessionId0 e t2) /\
  aiMessageAdded (handleEvent aiMsgId sessionId0 e t1) =
    aiMessageAdded (handleEvent aiMsgId sessionId0 e t2) /\
  currentAgentContent (handleEvent aiMsgId sessionId0 e t1) =
    (currentAgentContent t1 ++ buffered [e])%string.
Proof.
  intros He Happ Hcr Hflag.
  destruct t1 as [a1 cr1 cur1 flag1], t2 as [a2 cr2 cur2 flag2]. simpl in *. subst.
  destruct e as [sid|msg|delta|agent|from to msg| | |msg]; try discriminate He; simpl;
    unfold commit; simpl;
    repeat match goal with
           | |- context [if ?b then _ else _] => destruct b; simpl
           end;
    rewrite ?append_empty_r; repeat split.
Qed.

Lemma nonflush_run_ignores_buffer (aiMsgId : string) (sessionId0 : option string)
    (between : list Event) (t1 t2 : Turn) :
  forallb (fun e => negb (flushes e)) between = true ->
  app t1 = app t2 ->
  completeResponse t1 = completeResponse t2 ->
  aiMessageAdded t1 = aiMessageAdded t2 ->
  app (runEvents aiMsgId sessionId0 between t1) =
    app (runEvents aiMsgId sessionId0 between t2) /\
  completeResponse (runEvents aiMsgId sessionId0 between t1) =
    completeResponse (runEvents aiMsgId sessionId0 between t2) /\
  aiMessageAdded (runEvents aiMsgId sessionId0 between t1) =
    aiMessageAdded (runEvents aiMsgId sessionId0 between t2) /\
  currentAgentContent (runEvents aiMsgId sessionId0 between t1) =
    (currentAgentContent t1 ++ buffered between)%string.
Proof.
  revert t1 t2. induction between as [|e between IH]; intros t1 t2 Hall Happ Hcr Hflag.
  - simpl. rewrite append_empty_r. repeat split; assumption.
  - simpl in Hall. apply andb_true_iff in Hall. destruct Hall as [He Hall].
    apply negb_true_iff in He. rewrite !runEvents_cons.
    destruct (nonflush_ignores_buffer aiMsgId sessionId0 e t1 t2 He Happ Hcr Hflag)
      as (Happ' & Hcr' & Hflag' & Hcur').
    destruct (IH _ _ Hall Happ' Hcr' Hflag') as (H1 & H2 & H3 & H4).
    repeat split; try assumption.
    rewrite H4, Hcur'. rewrite <- append_associative. f_equal.
    destruct e; try discriminate He; simpl; rewrite ?append_empty_r; reflexivity.
Qed.

(** C2, amended.  At any point of a turn, a [content] event only extends
    [currentAgentContent], and the delta stays withheld through whatever
    events come before the next [agent_complete] or [complete]
    ([connected], [status], more [content], [transition], [done],
    [error]): after them the state of [App] (its messages among it), the
    committed text and the flag are exactly what they would be had the
    [content] event not arrived, and the buffer is the one before the
    event, then the delta, then the deltas that came after.  The next
    [agent_complete], or the next [complete] if the buffer is not empty,
    makes the committed text followed by that whole buffer the text of
    the reply.  A [transition] with a message commits the committed text
    followed by its message only, and leaves the buffer as it is. *)
Theorem content_withheld_until_flushed (aiMsgId : string) (sessionId0 : option string)
    (a : App) (evs : list Event) (delta : JsVal) (between : list Event) :
  forallb (fun e => negb (flushes e)) between = true ->
  let t := runEvents aiMsgId sessionId0 evs (startTurn a) in
  let received := handleEvent aiMsgId sessionId0 (Content delta) t in
  let without := runEvents aiMsgId sessionId0 between t in
  let pending := runEvents aiMsgId sessionId0 between received in
  (app received = app t /\
   completeResponse received = completeResponse t /\
   aiMessageAdded received = aiMessageAdded t /\
   currentAgentContent received = (currentAgentContent t ++ toString delta)%string) /\
  (app pending = app without /\
   completeResponse pending = completeResponse without /\
   aiMessageAdded pending = aiMessageAdded without /\
   currentAgentContent pending =
     (currentAgentContent t ++ toString delta ++ buffered between)%string) /\
  (forall agent,
     In (mkMessage aiMsgId (completeResponse pending ++ currentAgentContent pending) ai)
        (messages (app (handleEvent aiMsgId sessionId0 (AgentComplete agent) pending)))) /\
  (currentAgentContent pending <> EmptyString ->
     In (mkMessage aiMsgId (completeResponse pending ++ currentAgentContent pending) ai)
        (messages (app (handleEvent aiMsgId sessionId0 Complete pending)))) /\
  (forall from_agent to_agent message,
     truthy message = true ->
     let noted := handleEvent aiMsgId sessionId0
                    (Transition from_agent to_agent message) pending in
     In (mkMessage aiMsgId (completeResponse pending ++ toString message) ai)
        (messages (app noted)) /\
     currentAgentContent noted = currentAgentContent pending).
Proof.
  intros Hbetween t received without pending.
  assert (Hshown : replyShown aiMsgId pending).
  { apply replyShown_runEvents, replyShown_handleEvent, replyShown_runEvents.
    apply replyShown_start. }
  split; [repeat split|].
  split.
  { destruct (nonflush_run_ignores_buffer aiMsgId sessionId0 between received t Hbetween)
      as (H1 & H2 & H3 & H4); try reflexivity.
    repeat split; try assumption.
    fold pending in H4. rewrite H4. simpl. now rewrite <- append_associative. }
  split; [|split].
  - intros agent. exact (flush_shows aiMsgId pending Hshown).
  - intros Hbuffer. simpl.
    destruct (JS.truthy (currentAgentContent pending)) eqn:E.
    + exact (flush_shows aiMsgId pending Hshown).
    + apply truthy_empty in E. contradiction.
  - intros from_agent to_agent message Hmessage noted. subst noted. simpl.
    rewrite Hmessage. split.
    + apply (commit_shows aiMsgId
               (set_completeResponse (completeResponse pending ++ toString message) pending)).
      eapply replyShown_ext; [| |exact Hshown]; reflexivity.
    + exact (proj1 (proj2 (commit_locals aiMsgId
               (set_completeResponse (completeResponse pending ++ toString message)
                  pending)))).
Qed.

Lemma content_withheld_until_flushed_witness :
  let t := runEvents "1001" None [Content (str "A"); AgentComplete undefined]
             (startTurn awaiting) in
  let between := [Status (str "thinking"); Transition undefined undefined (str "!");
                  Content (str "C"); Done] in
  let pending := runEvents "1001" None between
                   (handleEvent "1001" None (Content (str "B")) t) in
  messages (app pending) = messages (app (runEvents "1001" None between t)) /\
  In (mkMessage "1001" "A!BC" ai)
     (messages (app (handleEvent "1001" None (AgentComplete undefined) pending))) /\
  In (mkMessage "1001" "A!BC" ai)
     (messages (app (handleEvent "1001" None Complete pending))).
Proof.
  intros t between pending.
  pose proof (content_withheld_until_flushed "1001" None awaiting
                [Content (str "A"); AgentComplete undefined] (str "B") between eq_refl)
    as (_ & (Happ & _) & Hagent & Hcomplete & _).
  split; [|split].
  - exact (f_equal messages Happ).
  - exact (Hagent undefined).
  - apply Hcomplete. discriminate.
Defined.

(** C3.  From the start of a turn whose identifier is new to the
    conversation, the events content A, agent_complete, content B,
    agent_complete, done leave exactly one more message, the ai reply with
    text AB.  Each [agent_complete], in any state, appends the buffer to
    [completeResponse], empties the buffer, and commits: the reply is
    appended with the new committed text if the flag was down, and the
    text of the message with the reply's identifier is rewritten to it
    otherwise. *)
Theorem two_agents_one_reply (aiMsgId : string) (sessionId0 : option string)
    (a : App) (agent1 agent2 : JsVal) :
  fresh aiMsgId (messages a) ->
  messages (app (runEvents aiMsgId sessionId0
                   [Content (str "A"); AgentComplete agent1;
                    Content (str "B"); AgentComplete agent2; Done]
                   (startTurn a)))
  = messages a ++ [mkMessage aiMsgId "AB" ai] /\
  forall (agent : JsVal) (t : Turn),
    let flushed := (completeResponse t ++ currentAgentContent t)%string in
    let t' := handleEvent aiMsgId sessionId0 (AgentComplete agent) t in
    completeResponse t' = flushed /\
    currentAgentContent t' = EmptyString /\
    aiMessageAdded t' = true /\
    messages (app t') =
      if aiMessageAdded t
      then map (fun m => if id m =? aiMsgId
                         then mkMessage (id m) flushed (sender m) else m)
               (messages (app t))
      else messages (app t) ++ [mkMessage aiMsgId flushed ai].
Proof.
  intros Hfresh. split.
  - unfold runEvents, startTurn. simpl.
    rewrite map_app, (map_fresh aiMsgId _ (messages a) Hfresh). simpl.
    now rewrite String.eqb_refl.
  - intros agent t flushed t'. subst t' flushed. simpl.
    destruct (commit_locals aiMsgId
                (set_completeResponse (completeResponse t ++ currentAgentContent t) t))
      as (Hcr & _ & Hflag & _).
    repeat split; try assumption.
    unfold commit. simpl. now destruct (aiMessageAdded t).
Qed.

Lemma two_agents_one_reply_witness :
  fresh "1001" (messages awaiting) /\
  messages (app (runEvents "1001" None
                   [Content (str "A"); AgentComplete undefined;
                    Content (str "B"); AgentComplete undefined; Done]
                   (startTurn awaiting)))
  = [mkMessage "1000" "hi" user; mkMessage "1001" "AB" ai].
Proof.
  assert (Hfresh : fresh "1001" (messages awaiting)).
  { intros m [<-|[]]. discriminate. }
  split; [exact Hfresh|].
  exact (proj1 (two_agents_one_reply "1001" None awaiting undefined undefined Hfresh)).
Defined.

(* ------------------------------------------------------------------ *)
(** ** Error events *)

(** C7.  An [error] event appends exactly one ai message with the reply's
    identifier when none has been added yet for the turn, its text being
    the event's message, or the fallback when the event has none (or an
    empty one); it leaves the messages as they are when one has been
    added.  Either way the messages there were keep their place and their
    text, and typing is false afterwards.  "None added yet" is the
    handler's own record, [aiMessageAdded] being false; at any point of a
    turn that is the case whenever the conversation holds no message with
    the reply's identifier. *)
Theorem error_event_semantics (aiMsgId : string) (sessionId0 : option string)
    (message : JsVal) (t : Turn) :
  let t' := handleEvent aiMsgId sessionId0 (Error message) t in
  let errorMsg :=
    mkMessage aiMsgId (if truthy message then toString message else errorFallback) ai in
  messages (app t') =
    messages (app t) ++ (if aiMessageAdded t then [] else [errorMsg]) /\
  isTyping (app t') = false /\
  forall (a : App) (evs : list Event),
    let reached := runEvents aiMsgId sessionId0 evs (startTurn a) in
    fresh aiMsgId (messages (app reached)) ->
    messages (app (handleEvent aiMsgId sessionId0 (Error message) reached)) =
      messages (app reached) ++ [errorMsg].
Proof.
  intros t' errorMsg. subst t' errorMsg. split; [|split; [reflexivity|]].
  - simpl. destruct (aiMessageAdded t); simpl.
    + now rewrite app_nil_r.
    + now rewrite orElse_spec.
  - intros a evs reached Hfresh.
    assert (Hshown : replyShown aiMsgId reached)
      by apply replyShown_runEvents, replyShown_start.
    simpl. destruct (aiMessageAdded reached) eqn:E.
    + destruct (Hshown E) as (m & Hin & Hid & _). now apply Hfresh in Hin.
    + simpl. now rewrite orElse_spec.
Qed.

(* ------------------------------------------------------------------ *)
(** ** Session binding *)

(** C9, at the stream that breaks it.  The guard of the [connected] case
    reads the [sessionId] the handler was created with, which
    [setSessionId] does not change: in a turn started without a session,
    a second [connected] event with another identifier replaces the one
    the first had bound.  First for every state and every two non-empty
    identifiers, then for the handler run on the frames of such a
    stream. *)
Theorem second_connected_rebinds_session :
  (forall (aiMsgId : string) (t : Turn) (c1 c2 : ascii) (r1 r2 : string),
     sessionId (app (runEvents aiMsgId None
                       [Connected (str (String c1 r1)); Connected (str (String c2 r2))] t))
     = Some (String c2 r2)) /\
  handleSendMessage JSON.parse 1000 1000
    (Body [frame "{'type':'connected','session_id':'s1'}";
           frame "{'type':'connected','session_id':'s2'}";
           frame "{'type':'done'}"] EndOfStream)
    (asking "hi")
  = Some (mkApp true EmptyString [mkMessage "1000" "hi" user] false (Some "s2"),
          [mkRequest "/api/chat/stream" "hi" None]).
Proof.
  split.
  - intros aiMsgId t c1 c2 r1 r2. reflexivity.
  - vm_compute. reflexivity.
Qed.

(** What does hold of the [connected] case: a handler created with a
    bound session never rebinds it, and binding twice to one identifier
    is binding once. *)
Lemma connected_keeps_bound_session (aiMsgId : string) (sessionId0 : option string)
    (session_id : JsVal) (t : Turn) :
  bound sessionId0 = true ->
  handleEvent aiMsgId sessionId0 (Connected session_id) t = t.
Proof. intros H. simpl. now rewrite H. Qed.

Lemma connected_twice_same (aiMsgId : string) (sessionId0 : option string)
    (session_id : JsVal) (t : Turn) :
  handleEvent aiMsgId sessionId0 (Connected session_id)
    (handleEvent aiMsgId sessionId0 (Connected session_id) t)
  = handleEvent aiMsgId sessionId0 (Connected session_id) t.
Proof.
  simpl. destruct (negb (bound sessionId0) && truthy session_id); reflexivity.
Qed.

(* ------------------------------------------------------------------ *)
(** ** Lines, chunks and the events they carry *)

Section ReaderFacts.

Variable aiMsgId : string.
Variable sessionId0 : option string.
Variable JSON_parse : string -> option json.

Lemma processLines_app (lines1 lines2 : list string) (t : Turn) :
  processLines aiMsgId sessionId0 JSON_parse (lines1 ++ lines2) t =
  match processLines aiMsgId sessionId0 JSON_parse lines1 t with
  | Some t' => processLines aiMsgId sessionId0 JSON_parse lines2 t'
  | None => None
  end.
Proof.
  revert t. induction lines1 as [|line rest IH]; intros t; simpl; [reflexivity|].
  destruct (processLine aiMsgId sessionId0 JSON_parse line t); [apply IH | reflexivity].
Qed.

(** The read loop feeds the dispatch the pieces of each chunk, chunk by
    chunk. *)
Lemma readLoop_lines (chunks : list string) (t : Turn) :
  readLoop aiMsgId sessionId0 JSON_parse chunks t =
  processLines aiMsgId sessionId0 JSON_parse (flat_map JS.split chunks) t.
Proof.
  revert t. induction chunks as [|chunk rest IH]; intros t; simpl; [reflexivity|].
  rewrite processLines_app. unfold processChunk.
  destruct (processLines aiMsgId sessionId0 JSON_parse (JS.split chunk) t);
    [apply IH | reflexivity].
Qed.

(** A payload without a recognised [type] reaches no case. *)
Lemma unrecognised_no_case (eventData : json) :
  recognisedType eventData = false ->
  readEvent eventData = Throws \/ readEvent eventData = NoCase.
Proof.
  unfold recognisedType, readEvent. intros H.
  destruct eventData as [|b|lit|s|items|members]; auto.
  simpl in *. destruct (lookup "type" members) as [[|b|lit|type|items|ms]|]; auto.
  simpl in H. repeat (apply orb_false_elim in H; destruct H as [-> H]). auto.
Qed.

(** A line within the typed wire format is processed, and what it does
    to the turn is what at most one event does. *)
Lemma processLine_typed (line : string) (t : Turn) :
  lineTyped JSON_parse line = true ->
  exists evs,
    processLine aiMsgId sessionId0 JSON_parse line t =
    Some (runEvents aiMsgId sessionId0 evs t).
Proof.
  unfold lineTyped, processLine. intros H.
  destruct (JS.startsWith "data: " line); [|now exists []].
  destruct (JSON_parse (JS.slice 6 line)) as [eventData|]; [|now exists []].
  destruct (readEvent eventData) as [| | |e];
    [now exists [] | now exists [] | discriminate | now exists [e]].
Qed.

Lemma processLines_typed (lines : list string) (t : Turn) :
  forallb (lineTyped JSON_parse) lines = true ->
  exists evs,
    processLines aiMsgId sessionId0 JSON_parse lines t =
    Some (runEvents aiMsgId sessionId0 evs t).
Proof.
  revert t. induction lines as [|line rest IH]; intros t H; simpl.
  - now exists [].
  - simpl in H. apply andb_true_iff in H. destruct H as [Hline Hrest].
    destruct (processLine_typed line t Hline) as (evs1 & ->).
    destruct (IH (runEvents aiMsgId sessionId0 evs1 t) Hrest) as (evs2 & ->).
    exists (evs1 ++ evs2). now rewrite runEvents_app.
Qed.

End ReaderFacts.

(* ------------------------------------------------------------------ *)
(** ** Typing *)

Lemma trimStart_blank (s : string) :
  allWhiteSpace s = true -> JS.trimStart s = EmptyString.
Proof.
  induction s as [|c r IH]; simpl; [reflexivity|].
  intros H. apply andb_true_iff in H. destruct H as [-> Hr]. now apply IH.
Qed.

Lemma trim_blank (s : string) : allWhiteSpace s = true -> JS.trim s = EmptyString.
Proof. intros H. unfold JS.trim. now rewrite trimStart_blank. Qed.

(** C6.  A call of the handler on a non-blank input, whatever the
    transport does (rejected request, status not ok, no body, a stream
    that ends, a stream whose reader rejects) and whatever events the
    stream carries, returns with typing false; and the events done,
    complete and error each leave typing false when they are handled. *)
Theorem typing_cleared_on_every_exit (JSON_parse : string -> option json)
    (now1 now2 : Z) (net : Transport) (a : App) :
  JS.trim (inputValue a) <> EmptyString ->
  transportTyped JSON_parse net ->
  (exists a' requests,
     handleSendMessage JSON_parse now1 now2 net a = Some (a', requests) /\
     isTyping a' = false) /\
  (forall aiMsgId sessionId0 message t,
     isTyping (app (handleEvent aiMsgId sessionId0 Done t)) = false /\
     isTyping (app (handleEvent aiMsgId sessionId0 Complete t)) = false /\
     isTyping (app (handleEvent aiMsgId sessionId0 (Error message) t)) = false).
Proof.
  intros Hinput Htyped. split; [|repeat split].
  unfold handleSendMessage.
  destruct (JS.truthy (JS.trim (inputValue a))) eqn:E;
    [|apply truthy_empty in E; contradiction].
  simpl negb. cbv iota.
  destruct net as [|status| |chunks ending]; simpl in Htyped;
    try (eexists; eexists; split; [reflexivity|reflexivity]).
  rewrite readLoop_lines.
  edestruct processLines_typed as (evs & ->); [exact Htyped|].
  eexists; eexists; split; [reflexivity|].
  destruct ending; reflexivity.
Qed.

Lemma typing_cleared_on_every_exit_witness :
  exists a' requests,
    handleSendMessage JSON.parse 1000 1000
      (Body [frame "{'type':'status','message':'thinking'}";
             frame "{'type':'content','delta':'A'}"] ReadRejected)
      (asking "hi")
    = Some (a', requests) /\ isTyping a' = false.
Proof.
  refine (proj1 (typing_cleared_on_every_exit JSON.parse 1000 1000 _ (asking "hi") _ _)).
  - vm_compute. discriminate.
  - vm_compute. reflexivity.
Defined.

(* ------------------------------------------------------------------ *)
(** ** Transport failures *)

(** The [catch], once the reply is in the conversation: the reply is
    replaced by the error message, and no message with its identifier
    keeps another text. *)
Lemma catchError_overwrites (aiMsgId : string) (t : Turn) :
  replyShown aiMsgId t ->
  aiMessageAdded t = true ->
  let errorMsg := mkMessage aiMsgId errorText ai in
  messages (app (catchError aiMsgId t)) =
    map (fun m => if id m =? aiMsgId then errorMsg else m) (messages (app t)) /\
  In errorMsg (messages (app (catchError aiMsgId t))) /\
  forall m, In m (messages (app (catchError aiMsgId t))) -> id m = aiMsgId -> m = errorMsg.
Proof.
  intros Hshown Hflag errorMsg. unfold catchError. rewrite Hflag. simpl.
  split; [reflexivity|]. split.
  - destruct (Hshown Hflag) as (m & Hin & Hid & _).
    apply in_map_iff. exists m. split; [|assumption].
    apply String.eqb_eq in Hid. now rewrite Hid.
  - intros m Hin Hid. apply in_map_iff in Hin. destruct Hin as (m0 & Hm & _).
    destruct (id m0 =? aiMsgId) eqn:E; [now symmetry|].
    subst m0. apply String.eqb_neq in E. contradiction.
Qed.

Lemma catchError_appends (aiMsgId : string) (t : Turn) :
  aiMessageAdded t = false ->
  messages (app (catchError aiMsgId t)) =
    messages (app t) ++ [mkMessage aiMsgId errorText ai].
Proof. intros Hflag. unfold catchError. now rewrite Hflag. Qed.

(** Within the typed wire format, the lines do to the turn what the
    events they dispatch do. *)
Lemma processLines_events (aiMsgId : string) (sessionId0 : option string)
    (JSON_parse : string -> option json) (lines : list string) (t : Turn) :
  forallb (lineTyped JSON_parse) lines = true ->
  processLines aiMsgId sessionId0 JSON_parse lines t =
  Some (runEvents aiMsgId sessionId0 (flat_map (lineEvents JSON_parse) lines) t).
Proof.
  revert t. induction lines as [|line rest IH]; intros t H; [reflexivity|].
  simpl in H. apply andb_true_iff in H. destruct H as [Hline Hrest].
  simpl. rewrite runEvents_app.
  assert (Hstep : processLine aiMsgId sessionId0 JSON_parse line t =
                  Some (runEvents aiMsgId sessionId0 (lineEvents JSON_parse line) t)).
  { unfold processLine, lineEvents, lineTyped in *.
    destruct (JS.startsWith "data: " line); [|reflexivity].
    destruct (JSON_parse (JS.slice 6 line)) as [eventData|]; [|reflexivity].
    destruct (readEvent eventData); try reflexivity. discriminate. }
  rewrite Hstep. now apply IH.
Qed.

Lemma readLoop_events (aiMsgId : string) (sessionId0 : option string)
    (JSON_parse : string -> option json) (chunks : list string) (t : Turn) :
  forallb (lineTyped JSON_parse) (flat_map JS.split chunks) = true ->
  readLoop aiMsgId sessionId0 JSON_parse chunks t =
  Some (runEvents aiMsgId sessionId0 (streamEvents JSON_parse chunks) t).
Proof.
  intros H. rewrite readLoop_lines. now apply processLines_events.
Qed.

(** C8.  A call on a non-blank input whose transport fails (the request
    is rejected, the status is not ok, there is no body to read, or the
    reader rejects after some chunks) returns with typing false, having
    issued its one request.  With [t] the turn as the events of the
    chunks delivered before the failure left it (no event when the
    failure precedes the stream): the call returns the state of [App]
    the [catch] makes of [t].  If no reply was committed in [t], that is
    the conversation of [t] with one more message, the ai message with
    the generic error text; if one was, it is the conversation of [t]
    with every message that has the reply's identifier replaced by that
    error message, so no text shown for the reply survives and nothing
    is appended.  When the failure precedes the stream, the conversation
    gains the question and the error message, nothing else. *)
Theorem transport_failure_aborts (JSON_parse : string -> option json)
    (now1 now2 : Z) (net : Transport) (a : App) :
  JS.trim (inputValue a) <> EmptyString ->
  transportTyped JSON_parse net ->
  fails net ->
  let aiMsgId := JS.Number_toString (now2 + 1) in
  let userMsg := mkMessage (JS.Number_toString now1) (inputValue a) user in
  let errorMsg := mkMessage aiMsgId errorText ai in
  let t := runEvents aiMsgId (sessionId a) (received JSON_parse net)
             (startTurn (submitted now1 a)) in
  exists a' : App,
    handleSendMessage JSON_parse now1 now2 net a =
      Some (a', [mkRequest "/api/chat/stream" (inputValue a) (sessionId a)]) /\
    a' = app (catchError aiMsgId t) /\
    isTyping a' = false /\
    (aiMessageAdded t = false -> messages a' = messages (app t) ++ [errorMsg]) /\
    (aiMessageAdded t = true ->
       messages a' =
         map (fun m => if id m =? aiMsgId then errorMsg else m) (messages (app t)) /\
       length (messages a') = length (messages (app t)) /\
       In errorMsg (messages a') /\
       forall m, In m (messages a') -> id m = aiMsgId -> m = errorMsg) /\
    (match net with
     | Body _ _ => True
     | _ => messages a' = messages a ++ [userMsg; errorMsg]
     end).
Proof.
  intros Hinput Htyped Hfails aiMsgId userMsg errorMsg t.
  assert (Hshown : replyShown aiMsgId t)
    by apply replyShown_runEvents, replyShown_start.
  assert (Hcall : handleSendMessage JSON_parse now1 now2 net a =
                  Some (app (catchError aiMsgId t),
                        [mkRequest "/api/chat/stream" (inputValue a) (sessionId a)])).
  { unfold handleSendMessage.
    destruct (JS.truthy (JS.trim (inputValue a))) eqn:E;
      [|apply truthy_empty in E; contradiction].
    simpl negb. cbv iota.
    fold (submitted now1 a). fold aiMsgId. fold (startTurn (submitted now1 a)).
    destruct net as [|status| |chunks ending]; try reflexivity.
    destruct ending; [contradiction|].
    simpl in Htyped. rewrite (readLoop_events _ _ _ _ _ Htyped). reflexivity. }
  exists (app (catchError aiMsgId t)).
  split; [exact Hcall|]. split; [reflexivity|]. split; [reflexivity|].
  split; [apply catchError_appends|]. split.
  - intros Hflag.
    destruct (catchError_overwrites aiMsgId t Hshown Hflag) as (Hmap & Hin & Hall).
    split; [exact Hmap|]. split; [|split; assumption].
    rewrite Hmap. apply length_map.
  - destruct net as [|status| |chunks ending]; try exact I;
      unfold catchError; simpl; now rewrite <- app_assoc.
Qed.

Lemma transport_failure_aborts_witness :
  exists a' : App,
    handleSendMessage JSON.parse 1000 1000
      (Body [frame "{'type':'content','delta':'A'}";
             frame "{'type':'agent_complete','agent':'x'}"] ReadRejected)
      (asking "hi")
    = Some (a', [mkRequest "/api/chat/stream" "hi" None]) /\
    messages a' = [mkMessage "1000" "hi" user; mkMessage "1001" errorText ai] /\
    isTyping a' = false.
Proof.
  destruct (transport_failure_aborts JSON.parse 1000 1000
              (Body [frame "{'type':'content','delta':'A'}";
                     frame "{'type':'agent_complete','agent':'x'}"] ReadRejected)
              (asking "hi"))
    as (a' & Hcall & _ & Htyping & _ & Hcommitted & _).
  - vm_compute. discriminate.
  - vm_compute. reflexivity.
  - exact I.
  - exists a'. split; [exact Hcall|]. split; [|exact Htyping].
    exact (proj1 (Hcommitted eq_refl)).
Defined.

(* ------------------------------------------------------------------ *)
(** ** The guard on the input *)

(** C10.  When the input is empty or holds white space only, a call of
    the handler (the streamed one, and the single-reply one of
    [frontend/src/App.tsx]) returns at its guard: the state of [App] is
    the one it was called in, and no request was issued, whatever the
    clock and the transport would have been. *)
Theorem blank_input_is_a_noop (JSON_parse : string -> option json)
    (now1 now2 : Z) (net : Transport) (answer : Sync.Answer) (a : App) :
  allWhiteSpace (inputValue a) = true ->
  handleSendMessage JSON_parse now1 now2 net a = Some (a, []) /\
  Sync.handleSendMessage now1 now2 answer a = Some (a, []).
Proof.
  intros Hblank. apply trim_blank in Hblank.
  unfold handleSendMessage, Sync.handleSendMessage.
  rewrite Hblank. split; reflexivity.
Qed.

Lemma blank_input_is_a_noop_witness :
  let blank := String " " (String (ascii_of_nat 9) (String JS.LF EmptyString)) in
  let a := mkApp true blank [mkMessage "1000" "hi" user] true (Some "s1") in
  handleSendMessage JSON.parse 2000 2000 (Body [frame "{'type':'done'}"] EndOfStream) a
    = Some (a, []) /\
  Sync.handleSendMessage 2000 2000 Sync.Rejected a = Some (a, []).
Proof.
  intros blank a.
  apply (blank_input_is_a_noop JSON.parse 2000 2000
           (Body [frame "{'type':'done'}"] EndOfStream) Sync.Rejected a).
  reflexivity.
Defined.

(* ------------------------------------------------------------------ *)
(** ** Malformed frames *)

(** C4.  A line that carries the data prefix and whose payload does not
    parse, or has no recognised [type], is skipped: processing it returns
    the turn as it was.  Hence a list of lines with such a line anywhere
    in it is processed exactly as the list without it. *)
Theorem malformed_frame_is_skipped (aiMsgId : string) (sessionId0 : option string)
    (JSON_parse : string -> option json)
    (bad : string) (before after : list string) (t : Turn) :
  malformed JSON_parse bad ->
  processLine aiMsgId sessionId0 JSON_parse bad t = Some t /\
  processLines aiMsgId sessionId0 JSON_parse (before ++ bad :: after) t =
  processLines aiMsgId sessionId0 JSON_parse (before ++ after) t.
Proof.
  intros [Hprefix Hpayload].
  assert (Hskip : forall t', processLine aiMsgId sessionId0 JSON_parse bad t' = Some t').
  { intros t'. unfold processLine. rewrite Hprefix.
    destruct (JSON_parse (JS.slice 6 bad)) as [eventData|]; [|reflexivity].
    destruct (unrecognised_no_case eventData Hpayload) as [-> | ->]; reflexivity. }
  split; [apply Hskip|].
  rewrite !processLines_app.
  destruct (processLines aiMsgId sessionId0 JSON_parse before t) as [t'|]; [|reflexivity].
  simpl. now rewrite Hskip.
Qed.

Lemma malformed_frame_is_skipped_witness :
  let good1 := JSON.quoted "data: {'type':'content','delta':'A'}" in
  let bad := JSON.quoted "data: {'type':'content','delta':" in
  let good2 := JSON.quoted "data: {'type':'agent_complete','agent':'x'}" in
  processLine "1001" None JSON.parse bad (startTurn awaiting) = Some (startTurn awaiting) /\
  processLines "1001" None JSON.parse ([good1] ++ bad :: [good2]) (startTurn awaiting) =
  processLines "1001" None JSON.parse ([good1] ++ [good2]) (startTurn awaiting).
Proof.
  intros good1 bad good2.
  apply (malformed_frame_is_skipped "1001" None JSON.parse bad [good1] [good2]).
  split; [reflexivity | exact I].
Defined.

(* ------------------------------------------------------------------ *)
(** ** Chunks and lines *)

Lemma split_not_nil (s : string) : JS.split s <> [].
Proof.
  destruct s as [|c r]; simpl; [discriminate|].
  destruct (Ascii.eqb c JS.LF); [discriminate|].
  destruct (JS.split r); discriminate.
Qed.

(** The pieces of a split, joined by line feeds, are the text. *)
Lemma split_concat (s : string) :
  String.concat (String JS.LF EmptyString) (JS.split s) = s.
Proof.
  induction s as [|c r IH]; [reflexivity|].
  simpl. pose proof (split_not_nil r) as Hr.
  destruct (JS.split r) as [|piece pieces]; [contradiction|].
  destruct (Ascii.eqb c JS.LF) eqn:E.
  - apply Ascii.eqb_eq in E. subst c. simpl in *. now rewrite IH.
  - destruct pieces; simpl in *; now rewrite IH.
Qed.

(** No piece of a split holds a line feed. *)
Lemma split_pieces (s : string) : forallb (fun piece => negb (hasLF piece)) (JS.split s) = true.
Proof.
  induction s as [|c r IH]; [reflexivity|].
  simpl. destruct (Ascii.eqb c JS.LF) eqn:E; [exact IH|].
  destruct (JS.split r) as [|piece pieces]; simpl in *; rewrite ?E; [reflexivity|].
  exact IH.
Qed.

(** C5 as stated fails: a frame delivered in two chunks is lost.  The
    first half has the prefix and a payload that does not parse, the
    second half has no prefix; delivered in one chunk, the same text is a
    content event. *)
Lemma frame_split_across_chunks_is_lost :
  let t0 := startTurn awaiting in
  let half1 := JSON.quoted "data: {'type':'content','del" in
  let half2 := (JSON.quoted "ta':'A'}" ++ String JS.LF EmptyString)%string in
  (half1 ++ half2)%string = frame "{'type':'content','delta':'A'}" /\
  readLoop "1001" None JSON.parse [half1; half2] t0 = Some t0 /\
  readLoop "1001" None JSON.parse [(half1 ++ half2)%string] t0 =
    Some (set_currentAgentContent "A" t0).
Proof. repeat split. Qed.

(** C5, amended.  The reader splits each decoded chunk on line feeds (the
    pieces hold no line feed and, joined by line feeds, are the chunk) and
    processes every piece of the chunk, the one after its last line feed
    included, before the next chunk is read: the lines processed for a
    stream are the pieces of its chunks, chunk by chunk, and nothing of a
    chunk is kept for the next one. *)
Theorem chunks_are_split_one_by_one (aiMsgId : string) (sessionId0 : option string)
    (JSON_parse : string -> option json) (chunks : list string) (t : Turn) :
  readLoop aiMsgId sessionId0 JSON_parse chunks t =
    processLines aiMsgId sessionId0 JSON_parse (flat_map JS.split chunks) t /\
  (forall chunk rest,
     readLoop aiMsgId sessionId0 JSON_parse (chunk :: rest) t =
     match processLines aiMsgId sessionId0 JSON_parse (JS.split chunk) t with
     | Some t' => readLoop aiMsgId sessionId0 JSON_parse rest t'
     | None => None
     end) /\
  (forall chunk,
     String.concat (String JS.LF EmptyString) (JS.split chunk) = chunk /\
     forallb (fun piece => negb (hasLF piece)) (JS.split chunk) = true).
Proof.
  split; [apply readLoop_lines|]. split.
  - intros chunk rest. reflexivity.
  - intros chunk. split; [apply split_concat | apply split_pieces].
Qed.

(* ------------------------------------------------------------------ *)
(** ** Streams without error events *)

Section OneReply.

Variable aiMsgId : string.
Variable sessionId0 : option string.
Variable history : list Message.
Hypothesis history_fresh : fresh aiMsgId history.

Lemma oneReply_commit (t : Turn) (committed : string) :
  oneReply aiMsgId history t ->
  oneReply aiMsgId history (commit aiMsgId (set_completeResponse committed t)).
Proof.
  unfold oneReply, commit. simpl. intros H.
  destruct (aiMessageAdded t) eqn:E; simpl; rewrite ?E, H.
  - rewrite map_app, (map_fresh aiMsgId _ history history_fresh). simpl.
    now rewrite String.eqb_refl.
  - now rewrite app_nil_r.
Qed.

Lemma oneReply_handleEvent (e : Event) (t : Turn) :
  isError e = false ->
  oneReply aiMsgId history t ->
  oneReply aiMsgId history (handleEvent aiMsgId sessionId0 e t) /\
  aiMessageAdded (handleEvent aiMsgId sessionId0 e t) = aiMessageAdded t || commits e t.
Proof.
  intros He H.
  destruct e as [sid|msg|delta|agent|from to msg| | |msg]; try discriminate He; simpl.
  - destruct (negb (bound sessionId0) && truthy sid); split;
      try exact H; now rewrite orb_false_r.
  - split; [exact H | now rewrite orb_false_r].
  - split; [exact H | now rewrite orb_false_r].
  - pose proof (oneReply_commit t (completeResponse t ++ currentAgentContent t) H) as Hc.
    destruct (commit_locals aiMsgId
                (set_completeResponse (completeResponse t ++ currentAgentContent t) t))
      as (Hcr & _ & Hflag & _).
    split; [|now rewrite orb_true_r].
    unfold oneReply in *. simpl. rewrite Hflag in *. now rewrite Hcr in *.
  - destruct (truthy msg); [|split; [exact H | now rewrite orb_false_r]].
    split; [now apply oneReply_commit|].
    rewrite orb_true_r. apply commit_locals.
  - destruct (JS.truthy (currentAgentContent t)).
    + pose proof (oneReply_commit t (completeResponse t ++ currentAgentContent t) H) as Hc.
      destruct (commit_locals aiMsgId
                  (set_completeResponse (completeResponse t ++ currentAgentContent t) t))
        as (Hcr & _ & Hflag & _).
      split; [|now rewrite orb_true_r].
      unfold oneReply in *. simpl. rewrite Hflag in *. now rewrite Hcr in *.
    + split; [exact H | now rewrite orb_false_r].
  - split; [exact H | now rewrite orb_false_r].
Qed.

Lemma oneReply_runEvents (evs : list Event) (t : Turn) :
  forallb (fun e => negb (isError e)) evs = true ->
  oneReply aiMsgId history t ->
  oneReply aiMsgId history (runEvents aiMsgId sessionId0 evs t) /\
  aiMessageAdded (runEvents aiMsgId sessionId0 evs t) =
    aiMessageAdded t || anyCommit aiMsgId sessionId0 evs t.
Proof.
  revert t. induction evs as [|e evs IH]; intros t Hevs H.
  - split; [exact H | now rewrite orb_false_r].
  - simpl in Hevs. apply andb_true_iff in Hevs. destruct Hevs as [He Hevs].
    apply negb_true_iff in He.
    destruct (oneReply_handleEvent e t He H) as [H1 Hflag1].
    destruct (IH (handleEvent aiMsgId sessionId0 e t) Hevs H1) as [H2 Hflag2].
    rewrite runEvents_cons. split; [exact H2|].
    rewrite Hflag2, Hflag1. simpl. now rewrite orb_assoc.
Qed.

End OneReply.

(** One reply per turn, where it holds.  In a turn whose identifier is
    new to the conversation and whose stream carries no [error] event,
    the conversation is the one the turn started with, followed by
    exactly one ai message, with the reply's identifier and the committed
    text, if some event of the stream committed, and by nothing
    otherwise. *)
Theorem one_reply_without_error_events (aiMsgId : string) (sessionId0 : option string)
    (a : App) (evs : list Event) :
  fresh aiMsgId (messages a) ->
  forallb (fun e => negb (isError e)) evs = true ->
  let t := runEvents aiMsgId sessionId0 evs (startTurn a) in
  messages (app t) =
    messages a ++ (if anyCommit aiMsgId sessionId0 evs (startTurn a)
                   then [mkMessage aiMsgId (completeResponse t) ai] else []).
Proof.
  intros Hfresh Hevs t.
  destruct (oneReply_runEvents aiMsgId sessionId0 (messages a) Hfresh evs (startTurn a) Hevs)
    as [H Hflag].
  - unfold oneReply. simpl. now rewrite app_nil_r.
  - unfold oneReply in H. fold t in H, Hflag. rewrite H, Hflag. reflexivity.
Qed.

Lemma one_reply_without_error_events_witness :
  let evs := [Connected (str "s1"); Content (str "He"); Content (str "llo");
              AgentComplete (str "x"); Transition (str "x") (str "y") (str "!");
              Content (str "B"); Complete; Done] in
  messages (app (runEvents "1001" None evs (startTurn awaiting))) =
  messages awaiting ++
    (if anyCommit "1001" None evs (startTurn awaiting)
     then [mkMessage "1001"
             (completeResponse (runEvents "1001" None evs (startTurn awaiting))) ai]
     else []).
Proof.
  intros evs.
  apply (one_reply_without_error_events "1001" None awaiting evs).
  - intros m [<-|[]]. discriminate.
  - reflexivity.
Defined.

(* ------------------------------------------------------------------ *)
(** ** What a turn leaves alone *)

Section History.

Variable aiMsgId : string.
Variable sessionId0 : option string.
Variable history : list Message.
Hypothesis history_fresh : fresh aiMsgId history.

Lemma historyKept_append (msgs : list Message) (m : Message) :
  isReply aiMsgId m -> historyKept aiMsgId history msgs -> historyKept aiMsgId history (msgs ++ [m]).
Proof.
  intros Hm (added & -> & Hadded). exists (added ++ [m]).
  split; [now rewrite app_assoc|].
  apply Forall_app. split; [assumption | now constructor].
Qed.

Lemma historyKept_rewrite (f : Message -> Message) (msgs : list Message) :
  (forall m, isReply aiMsgId m -> isReply aiMsgId (f m)) ->
  historyKept aiMsgId history msgs ->
  historyKept aiMsgId history (map (fun m => if id m =? aiMsgId then f m else m) msgs).
Proof.
  intros Hf (added & -> & Hadded).
  exists (map (fun m => if id m =? aiMsgId then f m else m) added).
  rewrite map_app, (map_fresh aiMsgId f history history_fresh). split; [reflexivity|].
  apply Forall_forall. intros m' Hin. apply in_map_iff in Hin.
  destruct Hin as (m & <- & Hin).
  rewrite Forall_forall in Hadded. specialize (Hadded m Hin).
  destruct (id m =? aiMsgId); [now apply Hf | assumption].
Qed.

Lemma historyKept_commit (t : Turn) :
  historyKept aiMsgId history (messages (app t)) -> historyKept aiMsgId history (messages (app (commit aiMsgId t))).
Proof.
  intros H. unfold commit. destruct (aiMessageAdded t); simpl.
  - apply historyKept_rewrite; [|assumption].
    intros m [Hid Hsender]. now split.
  - apply historyKept_append; [now split | assumption].
Qed.

Lemma historyKept_handleEvent (e : Event) (t : Turn) :
  historyKept aiMsgId history (messages (app t)) ->
  historyKept aiMsgId history (messages (app (handleEvent aiMsgId sessionId0 e t))).
Proof.
  intros H. destruct e as [sid|msg|delta|agent|from to msg| | |msg]; simpl;
    try assumption.
  - now destruct (negb (bound sessionId0) && truthy sid).
  - now apply (historyKept_commit
                 (set_completeResponse (completeResponse t ++ currentAgentContent t) t)).
  - destruct (truthy msg); [|assumption].
    now apply (historyKept_commit
                 (set_completeResponse (completeResponse t ++ toString msg) t)).
  - destruct (JS.truthy (currentAgentContent t)); [|assumption].
    now apply (historyKept_commit
                 (set_completeResponse (completeResponse t ++ currentAgentContent t) t)).
  - destruct (aiMessageAdded t); simpl; [assumption|].
    apply historyKept_append; [now split | assumption].
Qed.

Lemma historyKept_runEvents (evs : list Event) (t : Turn) :
  historyKept aiMsgId history (messages (app t)) ->
  historyKept aiMsgId history (messages (app (runEvents aiMsgId sessionId0 evs t))).
Proof.
  revert t. induction evs as [|e evs IH]; intros t H; [exact H|].
  rewrite runEvents_cons. apply IH. now apply historyKept_handleEvent.
Qed.

Lemma historyKept_catchError (t : Turn) :
  historyKept aiMsgId history (messages (app t)) ->
  historyKept aiMsgId history (messages (app (catchError aiMsgId t))).
Proof.
  intros H. unfold catchError. destruct (aiMessageAdded t); simpl.
  - apply (historyKept_rewrite (fun _ => mkMessage aiMsgId errorText ai)); [|assumption].
    intros m _. now split.
  - apply historyKept_append; [now split | assumption].
Qed.

End History.

(** [toString] tells two clock readings apart. *)
Lemma Number_toString_inj (n m : Z) :
  JS.Number_toString n = JS.Number_toString m -> n = m.
Proof.
  unfold JS.Number_toString. intros H.
  assert (Hnorm : forall z, NilZero.int_of_string (NilZero.string_of_int (Z.to_int z))
                            = Some (Z.to_int z)).
  { intros z. apply NilZero.isi; destruct z as [|p|p]; simpl; try discriminate;
      intros Hnil; injection Hnil as Hnil;
      now apply DecimalPos.Unsigned.to_uint_nonnil in Hnil. }
  apply DecimalZ.to_int_inj. apply (f_equal NilZero.int_of_string) in H.
  rewrite !Hnorm in H. now injection H.
Qed.

(** The events and the [catch] write neither [hasStarted] nor
    [inputValue]. *)
Lemma handleEvent_keeps_input (aiMsgId : string) (sessionId0 : option string)
    (e : Event) (t : Turn) :
  hasStarted (app (handleEvent aiMsgId sessionId0 e t)) = hasStarted (app t) /\
  inputValue (app (handleEvent aiMsgId sessionId0 e t)) = inputValue (app t).
Proof.
  destruct e as [sid|msg|delta|agent|from to msg| | |msg]; simpl;
    unfold commit; simpl;
    repeat match goal with
           | |- context [if ?b then _ else _] => destruct b; simpl
           end; split; reflexivity.
Qed.

Lemma runEvents_keeps_input (aiMsgId : string) (sessionId0 : option string)
    (evs : list Event) (t : Turn) :
  hasStarted (app (runEvents aiMsgId sessionId0 evs t)) = hasStarted (app t) /\
  inputValue (app (runEvents aiMsgId sessionId0 evs t)) = inputValue (app t).
Proof.
  revert t. induction evs as [|e evs IH]; intros t; [split; reflexivity|].
  rewrite runEvents_cons.
  destruct (IH (handleEvent aiMsgId sessionId0 e t)) as [-> ->].
  apply handleEvent_keeps_input.
Qed.

(** A streamed call leaves the conversation it found as it is.  On a
    non-blank input, when no message has the identifier the call makes
    for its reply and the second reading of the clock is not one less
    than the first, the call returns with the conversation it was given,
    then the question exactly as typed, then nothing but ai messages with
    the reply's identifier; it has issued one request, carrying the input
    as typed and the session of the time of the call, has emptied the
    input and set [hasStarted]. *)
Theorem streamed_call_keeps_history (JSON_parse : string -> option json)
    (now1 now2 : Z) (net : Transport) (a : App) :
  JS.trim (inputValue a) <> EmptyString ->
  transportTyped JSON_parse net ->
  fresh (JS.Number_toString (now2 + 1)) (messages a) ->
  now1 <> (now2 + 1)%Z ->
  exists (a' : App) (added : list Message),
    handleSendMessage JSON_parse now1 now2 net a =
      Some (a', [mkRequest "/api/chat/stream" (inputValue a) (sessionId a)]) /\
    messages a' =
      messages a ++ mkMessage (JS.Number_toString now1) (inputValue a) user :: added /\
    Forall (isReply (JS.Number_toString (now2 + 1))) added /\
    hasStarted a' = true /\
    inputValue a' = EmptyString.
Proof.
  intros Hinput Htyped Hfresh Hclock.
  set (aiMsgId := JS.Number_toString (now2 + 1)) in *.
  set (userMsg := mkMessage (JS.Number_toString now1) (inputValue a) user).
  assert (Hhistory : fresh aiMsgId (messages a ++ [userMsg])).
  { intros m Hin. apply in_app_or in Hin. destruct Hin as [Hin|[<-|[]]].
    - now apply Hfresh.
    - simpl. intros Heq. now apply Number_toString_inj in Heq. }
  assert (Hstart : historyKept aiMsgId (messages a ++ [userMsg])
                     (messages (app (startTurn (submitted now1 a))))).
  { exists []. split; [now rewrite app_nil_r | constructor]. }
  assert (Hend : forall t,
    historyKept aiMsgId (messages a ++ [userMsg]) (messages (app t)) ->
    exists added, messages (app t) = messages a ++ userMsg :: added /\
                  Forall (isReply aiMsgId) added).
  { intros t (added & -> & Hadded). exists added.
    split; [now rewrite <- app_assoc | assumption]. }
  unfold handleSendMessage.
  destruct (JS.truthy (JS.trim (inputValue a))) eqn:E;
    [|apply truthy_empty in E; contradiction].
  simpl negb. cbv iota.
  fold (submitted now1 a). fold aiMsgId. fold (startTurn (submitted now1 a)).
  destruct net as [|status| |chunks ending].
  1-3: destruct (Hend (catchError aiMsgId (startTurn (submitted now1 a))))
         as (added & Hmsgs & Hadded);
       [now apply historyKept_catchError
       | exists (app (catchError aiMsgId (startTurn (submitted now1 a)))), added;
         repeat split; assumption].
  simpl in Htyped. rewrite readLoop_lines.
  destruct (processLines_typed aiMsgId (sessionId a) JSON_parse
              (flat_map JS.split chunks) (startTurn (submitted now1 a)) Htyped)
    as (evs & ->).
  set (t := runEvents aiMsgId (sessionId a) evs (startTurn (submitted now1 a))).
  assert (Ht : historyKept aiMsgId (messages a ++ [userMsg]) (messages (app t)))
    by now apply historyKept_runEvents.
  destruct (runEvents_keeps_input aiMsgId (sessionId a) evs (startTurn (submitted now1 a)))
    as [Hstarted Hvalue]. fold t in Hstarted, Hvalue.
  destruct ending.
  - destruct (Hend (setIsTyping false t) Ht) as (added & Hmsgs & Hadded).
    exists (app (setIsTyping false t)), added. repeat split; assumption.
  - destruct (Hend (catchError aiMsgId t)) as (added & Hmsgs & Hadded);
      [now apply historyKept_catchError|].
    exists (app (catchError aiMsgId t)), added. repeat split; try assumption.
    + unfold catchError. now destruct (aiMessageAdded t).
    + unfold catchError. now destruct (aiMessageAdded t).
Qed.

Lemma streamed_call_keeps_history_witness :
  exists (a' : App) (added : list Message),
    handleSendMessage JSON.parse 2000 2000
      (Body [frame "{'type':'error','message':'boom'}";
             frame "{'type':'content','delta':'A'}";
             frame "{'type':'agent_complete','agent':'x'}"] ReadRejected)
      (mkApp true "  again " [mkMessage "1000" "hi" user; mkMessage "1001" "Hello" ai]
             false (Some "s1")) =
      Some (a', [mkRequest "/api/chat/stream" "  again " (Some "s1")]) /\
    messages a' =
      [mkMessage "1000" "hi" user; mkMessage "1001" "Hello" ai] ++
      mkMessage "2000" "  again " user :: added /\
    Forall (isReply "2001") added /\
    hasStarted a' = true /\
    inputValue a' = EmptyString.
Proof.
  refine (streamed_call_keeps_history JSON.parse 2000 2000 _
            (mkApp true "  again " [mkMessage "1000" "hi" user; mkMessage "1001" "Hello" ai]
                   false (Some "s1")) _ _ _ _).
  - vm_compute. discriminate.
  - vm_compute. reflexivity.
  - intros m [<-|[<-|[]]]; discriminate.
  - discriminate.
Defined.

(* ------------------------------------------------------------------ *)
(** ** The committed text *)

Lemma commit_keeps_text (aiMsgId : string) (t : Turn) :
  completeResponse (commit aiMsgId t) = completeResponse t.
Proof. apply commit_locals. Qed.

Lemma handleEvent_extends_text (aiMsgId : string) (sessionId0 : option string)
    (e : Event) (t : Turn) :
  exists suffix,
    completeResponse (handleEvent aiMsgId sessionId0 e t) =
    (completeResponse t ++ suffix)%string.
Proof.
  destruct e as [sid|msg|delta|agent|from to msg| | |msg]; simpl;
    unfold commit; simpl;
    repeat match goal with
           | |- context [if ?b then _ else _] => destruct b; simpl
           end;
    first [ exists EmptyString; now rewrite append_empty_r
          | eexists; reflexivity ].
Qed.

(** The committed text is append-only: whatever events follow, the
    [completeResponse] a turn has reached stays a prefix of the later
    one.  No event shortens or rewrites what was committed. *)
Theorem committed_text_only_grows (aiMsgId : string) (sessionId0 : option string)
    (evs1 evs2 : list Event) (t : Turn) :
  exists suffix,
    completeResponse (runEvents aiMsgId sessionId0 (evs1 ++ evs2) t) =
    (completeResponse (runEvents aiMsgId sessionId0 evs1 t) ++ suffix)%string.
Proof.
  rewrite runEvents_app.
  generalize (runEvents aiMsgId sessionId0 evs1 t). clear t evs1.
  induction evs2 as [|e evs IH]; intros t.
  - exists EmptyString. simpl. now rewrite append_empty_r.
  - rewrite runEvents_cons.
    destruct (IH (handleEvent aiMsgId sessionId0 e t)) as (suffix2 & ->).
    destruct (handleEvent_extends_text aiMsgId sessionId0 e t) as (suffix1 & ->).
    exists (suffix1 ++ suffix2)%string. now rewrite append_associative.
Qed.

(** [complete] publishes the buffer and keeps it; [agent_complete]
    publishes it and empties it.  So when [complete] finds text in the
    buffer and an [agent_complete] (or a second [complete]) follows with
    no content in between, the committed text receives the buffer twice. *)
Theorem complete_keeps_the_buffer (aiMsgId : string) (sessionId0 : option string)
    (agent : JsVal) (t : Turn) :
  currentAgentContent t <> EmptyString ->
  let buffer := currentAgentContent t in
  let completed := handleEvent aiMsgId sessionId0 Complete t in
  currentAgentContent completed = buffer /\
  completeResponse completed = (completeResponse t ++ buffer)%string /\
  completeResponse (handleEvent aiMsgId sessionId0 (AgentComplete agent) completed) =
    (completeResponse t ++ buffer ++ buffer)%string /\
  completeResponse (handleEvent aiMsgId sessionId0 Complete completed) =
    (completeResponse t ++ buffer ++ buffer)%string /\
  currentAgentContent (handleEvent aiMsgId sessionId0 (AgentComplete agent) t) = EmptyString.
Proof.
  intros Hbuffer buffer completed.
  assert (E : JS.truthy (currentAgentContent t) = true).
  { destruct (JS.truthy (currentAgentContent t)) eqn:E; [reflexivity|].
    now apply truthy_empty in E. }
  subst completed buffer. simpl. rewrite E. unfold commit. simpl.
  destruct (aiMessageAdded t) eqn:F; simpl; rewrite ?E; simpl; rewrite ?F; simpl;
    rewrite <- ?append_associative; repeat split.
Qed.

Lemma complete_keeps_the_buffer_witness :
  let t := runEvents "1001" None [Content (str "A")] (startTurn awaiting) in
  completeResponse
    (handleEvent "1001" None (AgentComplete undefined)
       (handleEvent "1001" None Complete t)) = "AA".
Proof.
  intros t.
  refine (proj1 (proj2 (proj2 (complete_keeps_the_buffer "1001" None undefined t _)))).
  discriminate.
Defined.

(* ------------------------------------------------------------------ *)
(** ** The session after the events *)

Lemma handleEvent_with_bound_session (aiMsgId : string) (sessionId0 : option string)
    (e : Event) (t : Turn) :
  sessionId (app (handleEvent aiMsgId sessionId0 e t)) =
    if bound sessionId0 then sessionId (app t)
    else match lastSupplied [e] with
         | Some s => Some s
         | None => sessionId (app t)
         end.
Proof.
  destruct (bound sessionId0) eqn:B;
    destruct e as [sid|msg|delta|agent|from to msg| | |msg]; simpl;
    rewrite ?B; simpl; unfold commit; simpl;
    repeat match goal with
           | |- context [if ?b then _ else _] => destruct b; simpl
           end; reflexivity.
Qed.

Lemma runEvents_session (aiMsgId : string) (sessionId0 : option string)
    (evs : list Event) (t : Turn) :
  sessionId (app (runEvents aiMsgId sessionId0 evs t)) =
    if bound sessionId0 then sessionId (app t)
    else match lastSupplied evs with
         | Some s => Some s
         | None => sessionId (app t)
         end.
Proof.
  revert t. induction evs as [|e evs IH]; intros t.
  - simpl. now destruct (bound sessionId0).
  - rewrite runEvents_cons, IH, handleEvent_with_bound_session.
    destruct (bound sessionId0); [reflexivity|].
    simpl. destruct (lastSupplied evs); [reflexivity|].
    destruct e as [sid|msg|delta|agent|from to msg| | |msg]; reflexivity.
Qed.

(** Where the session stands after any events.  In a turn whose handler
    was created with a session, no event changes it.  In a turn whose
    handler was created without one, the session is the identifier of
    the last [connected] event that carried a non-empty one, and is
    unchanged when no event did. *)
Theorem session_after_events (aiMsgId : string) (sessionId0 : option string)
    (evs : list Event) (t : Turn) :
  sessionId (app (runEvents aiMsgId sessionId0 evs t)) =
    if bound sessionId0 then sessionId (app t)
    else match lastSupplied evs with
         | Some s => Some s
         | None => sessionId (app t)
         end.
Proof.
  destruct (bound sessionId0) eqn:B.
  - now rewrite runEvents_session, B.
  - now rewrite runEvents_session, B.
Qed.

(** A handler created with a session keeps it through the whole call,
    streamed or single-reply, whatever the backend sends: neither a
    [connected] event nor the [session_id] of a reply replaces a session
    that was bound when the call was made. *)
Theorem bound_session_survives_a_call (JSON_parse : string -> option json)
    (now1 now2 : Z) (net : Transport) (answer : Sync.Answer) (a : App) :
  bound (sessionId a) = true ->
  transportTyped JSON_parse net ->
  answerTyped answer = true ->
  (exists a' requests,
     handleSendMessage JSON_parse now1 now2 net a = Some (a', requests) /\
     sessionId a' = sessionId a) /\
  (exists a' requests,
     Sync.handleSendMessage now1 now2 answer a = Some (a', requests) /\
     sessionId a' = sessionId a).
Proof.
  intros Hbound Htyped Hanswer. split.
  - unfold handleSendMessage.
    destruct (negb (JS.truthy (JS.trim (inputValue a))));
      [eexists; eexists; split; reflexivity|].
    destruct net as [|status| |chunks ending];
      try (eexists; eexists; split; reflexivity).
    simpl in Htyped. rewrite readLoop_lines.
    edestruct processLines_typed as (evs & ->); [exact Htyped|].
    eexists; eexists; split; [reflexivity|].
    assert (Hsession : forall t, sessionId (app (catchError (JS.Number_toString (now2 + 1)) t))
                                 = sessionId (app t))
      by (intros t; unfold catchError; now destruct (aiMessageAdded t)).
    destruct ending; [simpl | rewrite Hsession];
      rewrite runEvents_session, Hbound; reflexivity.
  - unfold Sync.handleSendMessage.
    destruct (negb (JS.truthy (JS.trim (inputValue a))));
      [eexists; eexists; split; reflexivity|].
    rewrite Hbound. simpl.
    destruct answer as [|status| |data];
      try (eexists; eexists; split; reflexivity).
    destruct data as [|b|lit|s|items|members];
      try (eexists; eexists; split; reflexivity); simpl in Hanswer |- *;
      try discriminate.
    destruct (typed (lookup "session_id" members)); [|discriminate].
    destruct (lookup "reply" members) as [[|b|lit|s|items|ms]|]; try discriminate.
    eexists; eexists; split; reflexivity.
Qed.

Lemma bound_session_survives_a_call_witness :
  let a := mkApp true "more" [mkMessage "1000" "hi" user] false (Some "s1") in
  (exists a' requests,
     handleSendMessage JSON.parse 2000 2000
       (Body [frame "{'type':'connected','session_id':'s2'}"] EndOfStream) a
     = Some (a', requests) /\ sessionId a' = Some "s1") /\
  (exists a' requests,
     Sync.handleSendMessage 2000 2000
       (Sync.Data (JObject [("reply", JString "ok"); ("session_id", JString "s2")])) a
     = Some (a', requests) /\ sessionId a' = Some "s1").
Proof.
  intros a.
  refine (bound_session_survives_a_call JSON.parse 2000 2000 _ _ a _ _ _).
  - reflexivity.
  - vm_compute. reflexivity.
  - reflexivity.
Defined.

(* ------------------------------------------------------------------ *)
(** ** Chunks that end at line ends *)

Lemma split_append_LF (a b : string) :
  JS.split (a ++ String JS.LF b) = JS.split a ++ JS.split b.
Proof.
  induction a as [|c r IH]; [reflexivity|].
  simpl. rewrite IH. pose proof (split_not_nil r) as Hr.
  destruct (Ascii.eqb c JS.LF); [reflexivity|].
  destruct (JS.split r) as [|piece pieces]; [contradiction | reflexivity].
Qed.

Lemma endsWithLF_spec (chunk : string) :
  endsWithLF chunk = true ->
  exists a, chunk = (a ++ String JS.LF EmptyString)%string.
Proof.
  induction chunk as [|c r IH]; [discriminate|].
  destruct r as [|c' r'].
  - simpl. intros H. apply Ascii.eqb_eq in H. subst c. now exists EmptyString.
  - intros H. destruct (IH H) as (a & Ha). exists (String c a). simpl. now rewrite <- Ha.
Qed.

(** Delivery in chunks that each end with a line feed is delivery in one
    piece: the read loop leaves the turn exactly as it would had the
    chunks arrived joined in a single chunk. *)
Theorem chunks_ending_in_line_feeds_are_transparent (aiMsgId : string)
    (sessionId0 : option string) (JSON_parse : string -> option json)
    (chunks : list string) (t : Turn) :
  forallb endsWithLF chunks = true ->
  readLoop aiMsgId sessionId0 JSON_parse chunks t =
  readLoop aiMsgId sessionId0 JSON_parse [joined chunks] t.
Proof.
  rewrite !readLoop_lines. simpl flat_map at 2. rewrite app_nil_r.
  revert t. induction chunks as [|chunk rest IH]; intros t Hends; [reflexivity|].
  simpl in Hends. apply andb_true_iff in Hends. destruct Hends as [Hchunk Hrest].
  destruct (endsWithLF_spec chunk Hchunk) as (a & ->).
  simpl flat_map. simpl joined.
  replace ((a ++ String JS.LF EmptyString) ++ joined rest)%string
    with (a ++ String JS.LF (joined rest))%string
    by (rewrite <- append_associative; reflexivity).
  rewrite !split_append_LF, <- !app_assoc, !processLines_app.
  destruct (processLines aiMsgId sessionId0 JSON_parse (JS.split a) t) as [t'|];
    [|reflexivity].
  simpl. now apply IH.
Qed.

Lemma chunks_ending_in_line_feeds_are_transparent_witness :
  let chunks := [frame "{'type':'content','delta':'He'}";
                 (frame "{'type':'content','delta':'llo'}" ++
                  frame "{'type':'agent_complete','agent':'x'}")%string;
                 frame "{'type':'done'}"] in
  readLoop "1001" None JSON.parse chunks (startTurn awaiting) =
  readLoop "1001" None JSON.parse [joined chunks] (startTurn awaiting).
Proof.
  intros chunks.
  apply (chunks_ending_in_line_feeds_are_transparent "1001" None JSON.parse chunks).
  reflexivity.
Defined.

(* ------------------------------------------------------------------ *)
(** ** The single-reply call *)

(** A single-reply call on a non-blank input adds exactly two messages,
    whatever the transport does: the question as typed, then one ai
    message, whose text is the [reply] when the answer arrived with one
    and the generic error text on every failure ([fetch] rejected, status
    not ok, unreadable body, [null] body).  It returns with typing false,
    the input emptied, one request issued; the session is the one
    supplied by the reply if none was bound, and the bound one
    otherwise. *)
Theorem single_reply_call (now1 now2 : Z) (net : Sync.Answer) (a : App) :
  JS.trim (inputValue a) <> EmptyString ->
  answerTyped net = true ->
  exists a',
    Sync.handleSendMessage now1 now2 net a =
      Some (a', [mkRequest "/api/chat" (inputValue a) (sessionId a)]) /\
    messages a' =
      messages a ++ [mkMessage (JS.Number_toString now1) (inputValue a) user;
                     mkMessage (JS.Number_toString (now2 + 1)) (replyText net) ai] /\
    isTyping a' = false /\
    hasStarted a' = true /\
    inputValue a' = EmptyString /\
    sessionId a' =
      if bound (sessionId a) then sessionId a
      else match suppliedSession net with
           | Some s => Some s
           | None => sessionId a
           end.
Proof.
  intros Hinput Htyped. unfold Sync.handleSendMessage.
  destruct (JS.truthy (JS.trim (inputValue a))) eqn:E;
    [|apply truthy_empty in E; contradiction].
  simpl negb. cbv iota.
  assert (Hfail : forall a0 : App,
            (if bound (sessionId a0) then sessionId a0 else sessionId a0) = sessionId a0)
    by (intros a0; now destruct (bound (sessionId a0))).
  destruct net as [|status| |data].
  1-3: eexists; split; [reflexivity|]; simpl; rewrite <- app_assoc, Hfail;
       repeat split.
  destruct data as [|b|lit|s|items|members]; simpl in Htyped; try discriminate.
  - eexists; split; [reflexivity|]; simpl; rewrite <- app_assoc, Hfail; repeat split.
  - unfold replyText, suppliedSession. simpl.
    destruct (typed (lookup "session_id" members)) as [session_id|]; [|discriminate].
    destruct (lookup "reply" members) as [[|b|lit|reply|items|ms]|]; try discriminate.
    eexists; split; [reflexivity|].
    destruct (bound (sessionId a)); simpl;
      [|destruct (truthy session_id); simpl];
      rewrite <- app_assoc; repeat split.
Qed.

Lemma single_reply_call_witness :
  exists a',
    Sync.handleSendMessage 1000 1000
      (Sync.Data (JObject [("reply", JString "Hello"); ("session_id", JString "s1")]))
      (asking "hi") =
      Some (a', [mkRequest "/api/chat" "hi" None]) /\
    messages a' = [mkMessage "1000" "hi" user; mkMessage "1001" "Hello" ai] /\
    isTyping a' = false /\
    hasStarted a' = true /\
    inputValue a' = EmptyString /\
    sessionId a' = Some "s1".
Proof.
  refine (single_reply_call 1000 1000
            (Sync.Data (JObject [("reply", JString "Hello"); ("session_id", JString "s1")]))
            (asking "hi") _ _).
  - discriminate.
  - reflexivity.
Defined.

(* ------------------------------------------------------------------ *)
(** ** Blank inputs *)

Lemma trimEnd_empty (s : string) :
  JS.trimEnd s = EmptyString -> allWhiteSpace s = true.
Proof.
  induction s as [|c r IH]; [reflexivity|].
  simpl. destruct (JS.trimEnd r) as [|c' r'] eqn:E; [|discriminate].
  destruct (JS.isWhiteSpace c); [|discriminate].
  intros _. now apply IH.
Qed.

Lemma allWhiteSpace_trimStart (s : string) :
  allWhiteSpace (JS.trimStart s) = true -> allWhiteSpace s = true.
Proof.
  induction s as [|c r IH]; [reflexivity|].
  simpl. destruct (JS.isWhiteSpace c) eqn:E; [exact IH|].
  simpl. now rewrite E.
Qed.

(** [trim] yields the empty string exactly on the inputs made of white
    space only. *)
Lemma trim_empty_iff (s : string) :
  JS.trim s = EmptyString <-> allWhiteSpace s = true.
Proof.
  split; [|apply trim_blank].
  unfold JS.trim. intros H. now apply allWhiteSpace_trimStart, trimEnd_empty.
Qed.

(* ------------------------------------------------------------------ *)
(** ** Health check and controls *)

Lemma checkHealth_value (net : Health.Answer) (healthStatus : Health.Status) :
  (Health.checkHealth false net healthStatus = Health.ok /\ saidOk net) \/
  (Health.checkHealth false net healthStatus = Health.error /\ ~ saidOk net).
Proof.
  destruct net as [|status| |data]; simpl;
    try (right; split; [reflexivity | intros (d & Heq & _); discriminate]).
  destruct data as [|b|lit|s|items|members]; simpl;
    try (right; split; [reflexivity
                       | intros (d & Heq & Hprop); injection Heq as <-; discriminate]).
  destruct (lookup "status" members) as [[|b|lit|status|items|ms]|] eqn:E;
    try (right; split; [reflexivity
                       | intros (d & Heq & Hprop); injection Heq as <-;
                         simpl in Hprop; rewrite E in Hprop; discriminate]).
  destruct (status =? "ok") eqn:Eok.
  - apply String.eqb_eq in Eok. subst status. left. split; [reflexivity|].
    exists (JObject members). now split.
  - apply String.eqb_neq in Eok. right. split; [reflexivity|].
    intros (d & Heq & Hprop). injection Heq as <-. simpl in Hprop.
    rewrite E in Hprop. injection Hprop as Hs. contradiction.
Qed.

(** The health check, once its answer is in.  If the effect was cleaned
    up meanwhile, the status is left as it was.  Otherwise the status is
    never left at loading, and it is ok exactly when the backend answered
    with a body whose [status] is the string ok: a rejected request, a
    status that is not ok, an unreadable body, a [null] body and any
    other [status] all give error. *)
Theorem health_check_outcome (cancelled : bool) (net : Health.Answer)
    (healthStatus : Health.Status) :
  (cancelled = true -> Health.checkHealth cancelled net healthStatus = healthStatus) /\
  (cancelled = false ->
     Health.checkHealth cancelled net healthStatus <> Health.loading /\
     (Health.checkHealth cancelled net healthStatus = Health.ok <-> saidOk net) /\
     (Health.checkHealth cancelled net healthStatus = Health.error <-> ~ saidOk net)).
Proof.
  split; intros ->.
  - destruct net; reflexivity.
  - destruct (checkHealth_value net healthStatus) as [[-> Hok] | [-> Hno]].
    + split; [discriminate|]. split; split; intros H;
        try reflexivity; try assumption; try discriminate.
      contradiction.
    + split; [discriminate|]. split; split; intros H;
        try reflexivity; try assumption; try discriminate.
      contradiction.
Qed.

Lemma health_check_outcome_witness :
  Health.checkHealth false
    (Health.Data (JObject [("status", JString "ok")])) Health.loading = Health.ok /\
  Health.checkHealth false
    (Health.Data (JObject [("status", JString "degraded")])) Health.loading = Health.error /\
  Health.checkHealth true (Health.Refused 503) Health.loading = Health.loading.
Proof.
  split; [|split].
  - apply (proj2 (health_check_outcome false
                    (Health.Data (JObject [("status", JString "ok")])) Health.loading)
             eq_refl).
    exists (JObject [("status", JString "ok")]). now split.
  - apply (proj2 (health_check_outcome false
                    (Health.Data (JObject [("status", JString "degraded")])) Health.loading)
             eq_refl).
    intros (data & Heq & Hprop). injection Heq as <-. discriminate.
  - apply (proj1 (health_check_outcome true (Health.Refused 503) Health.loading) eq_refl).
Defined.

Lemma Status_eqb_eq (x y : Health.Status) : Health.Status_eqb x y = true <-> x = y.
Proof. destruct x, y; simpl; split; intros H; congruence. Qed.

(** The send button is enabled exactly when the health check has said ok
    and the input holds something other than white space. *)
Lemma sendDisabled_iff (input : string) (healthStatus : Health.Status) :
  Health.sendDisabled input healthStatus = false <->
  healthStatus = Health.ok /\ allWhiteSpace input = false.
Proof.
  unfold Health.sendDisabled. rewrite orb_false_iff, !negb_false_iff, Status_eqb_eq.
  split; intros [H1 H2]; split; try assumption.
  - destruct (allWhiteSpace input) eqn:E; [|reflexivity].
    apply trim_blank in E. rewrite E in H1. discriminate.
  - destruct (JS.truthy (JS.trim input)) eqn:E; [reflexivity|].
    apply truthy_empty, trim_empty_iff in E. congruence.
Qed.

(** An enabled send button sends.  Whenever the button is rendered
    enabled, the health check has said ok, the input is not blank, and a
    click gets past the guard of the handler: the call (streamed, or
    single-reply) issues exactly one request, with the input as typed and
    the session of the moment. *)
Theorem enabled_send_button_sends (JSON_parse : string -> option json)
    (now1 now2 : Z) (net : Transport) (answer : Sync.Answer)
    (healthStatus : Health.Status) (a : App) :
  Health.sendDisabled (inputValue a) healthStatus = false ->
  transportTyped JSON_parse net ->
  answerTyped answer = true ->
  healthStatus = Health.ok /\
  Health.textareaDisabled healthStatus = false /\
  (exists a', handleSendMessage JSON_parse now1 now2 net a =
              Some (a', [mkRequest "/api/chat/stream" (inputValue a) (sessionId a)])) /\
  (exists a', Sync.handleSendMessage now1 now2 answer a =
              Some (a', [mkRequest "/api/chat" (inputValue a) (sessionId a)])).
Proof.
  intros Henabled Htyped Hanswer.
  apply sendDisabled_iff in Henabled. destruct Henabled as [-> Hinput].
  assert (Htrim : JS.trim (inputValue a) <> EmptyString).
  { intros H. apply trim_empty_iff in H. congruence. }
  split; [reflexivity|]. split; [reflexivity|]. split.
  - unfold handleSendMessage.
    destruct (JS.truthy (JS.trim (inputValue a))) eqn:E;
      [|apply truthy_empty in E; contradiction].
    simpl negb. cbv iota.
    destruct net as [|status| |chunks ending]; try (eexists; reflexivity).
    simpl in Htyped. rewrite readLoop_lines.
    edestruct processLines_typed as (evs & ->); [exact Htyped|].
    eexists; reflexivity.
  - unfold Sync.handleSendMessage.
    destruct (JS.truthy (JS.trim (inputValue a))) eqn:E;
      [|apply truthy_empty in E; contradiction].
    simpl negb. cbv iota.
    destruct answer as [|status| |data]; try (eexists; reflexivity).
    destruct data as [|b|lit|s|items|members]; simpl in Hanswer |- *;
      try discriminate; try (eexists; reflexivity).
    destruct (typed (lookup "session_id" members)); [|discriminate].
    destruct (lookup "reply" members) as [[|b|lit|s|items|ms]|]; try discriminate.
    eexists; reflexivity.
Qed.

Lemma enabled_send_button_sends_witness :
  Health.ok = Health.ok /\
  Health.textareaDisabled Health.ok = false /\
  (exists a', handleSendMessage JSON.parse 1000 1000
                (Body [frame "{'type':'done'}"] EndOfStream) (asking " hi") =
              Some (a', [mkRequest "/api/chat/stream" " hi" None])) /\
  (exists a', Sync.handleSendMessage 1000 1000 Sync.Unreadable (asking " hi") =
              Some (a', [mkRequest "/api/chat" " hi" None])).
Proof.
  refine (enabled_send_button_sends JSON.parse 1000 1000 _ Sync.Unreadable Health.ok
            (asking " hi") _ _ _).
  - reflexivity.
  - vm_compute. reflexivity.
  - reflexivity.
Defined.

(** The keyboard.  For every key event and every state: [preventDefault]
    is called exactly for Enter without Shift, and then the handler is
    called, so the event does what a click on the send button does.  Any
    other key, Shift+Enter, and Enter on a blank input leave the state of
    [App] as it is and issue no request. *)
Theorem keyboard_submission (JSON_parse : string -> option json)
    (now1 now2 : Z) (net : Transport) (e : KeyboardEvent) (a : App) :
  let pressed := handleKeyDown (handleSendMessage JSON_parse now1 now2 net) e a in
  (fst pressed = true <-> key e = "Enter" /\ shiftKey e = false) /\
  (key e = "Enter" /\ shiftKey e = false ->
   snd pressed = handleSendMessage JSON_parse now1 now2 net a) /\
  (key e <> "Enter" \/ shiftKey e = true \/ allWhiteSpace (inputValue a) = true ->
   snd pressed = Some (a, [])).
Proof.
  intros pressed. subst pressed. unfold handleKeyDown.
  destruct (key e =? "Enter") eqn:Ekey; destruct (shiftKey e) eqn:Eshift; simpl.
  - split; [split; [discriminate | intros [_ Hs]; discriminate]|].
    split; [intros [_ Hs]; discriminate | reflexivity].
  - apply String.eqb_eq in Ekey.
    split; [split; [now split | reflexivity]|].
    split; [reflexivity|].
    intros [H|[H|H]]; [contradiction | discriminate |].
    unfold handleSendMessage. now rewrite (trim_blank _ H).
  - apply String.eqb_neq in Ekey.
    split; [split; [discriminate | intros [Hk _]; contradiction]|].
    split; [intros [Hk _]; contradiction | reflexivity].
  - apply String.eqb_neq in Ekey.
    split; [split; [discriminate | intros [Hk _]; contradiction]|].
    split; [intros [Hk _]; contradiction | reflexivity].
Qed.

Lemma keyboard_submission_witness :
  let send := handleSendMessage JSON.parse 1000 1000 FetchRejected in
  let enter := mkKeyboardEvent "Enter" false in
  let shiftEnter := mkKeyboardEvent "Enter" true in
  fst (handleKeyDown send enter (asking "hi")) = true /\
  snd (handleKeyDown send enter (asking "hi")) = send (asking "hi") /\
  snd (handleKeyDown send shiftEnter (asking "hi")) = Some (asking "hi", []).
Proof.
  intros send enter shiftEnter.
  destruct (keyboard_submission JSON.parse 1000 1000 FetchRejected enter (asking "hi"))
    as (Hprevent & Hcalled & _).
  destruct (keyboard_submission JSON.parse 1000 1000 FetchRejected shiftEnter (asking "hi"))
    as (_ & _ & Hnothing).
  split; [|split].
  - apply Hprevent. now split.
  - apply Hcalled. now split.
  - apply Hnothing. right. left. reflexivity.
Defined.

(* ------------------------------------------------------------------ *)
(** ** The edges of the graph *)

Lemma In_firstn (A : Type) (k : nat) (l : list A) (x : A) :
  In x (firstn k l) -> In x l.
Proof.
  intros H. rewrite <- (firstn_skipn k l). apply in_or_app. now left.
Qed.

Lemma fold_left_invariant (A B : Type) (P : A -> Prop) (f : A -> B -> A)
    (l : list B) (a : A) :
  P a -> (forall a x, In x l -> P a -> P (f a x)) -> P (fold_left f l a).
Proof.
  revert a. induction l as [|x l IH]; intros a Ha Hf; [exact Ha|].
  simpl. apply IH.
  - apply Hf; [now left | exact Ha].
  - intros a' x' Hin. apply Hf. now right.
Qed.

Lemma ForallOrdPairs_snoc (A : Type) (R : A -> A -> Prop) (l : list A) (x : A) :
  ForallOrdPairs R l -> Forall (fun y => R y x) l -> ForallOrdPairs R (l ++ [x]).
Proof.
  induction 1 as [|a l Ha Hl IH]; intros Hx; simpl.
  - constructor; constructor.
  - inversion Hx as [|a' l' Hax Hlx]; subst. constructor.
    + apply Forall_app. split; [assumption | now constructor].
    + now apply IH.
Qed.

Section GraphFacts.

Variable n : nat.
Variable dist : nat -> nat -> QArith_base.Q.

Lemma others_In (i : nat) (d : nat * QArith_base.Q) :
  In d (Graph.others n dist i) <->
  fst d < n /\ fst d <> i /\ snd d = dist i (fst d).
Proof.
  unfold Graph.others. rewrite filter_In, in_map_iff, negb_true_iff, Nat.eqb_neq.
  split.
  - intros [(idx & <- & Hin) Hne]. apply in_seq in Hin. simpl in *.
    repeat split; [lia | assumption].
  - intros (Hlt & Hne & Hdist). split; [|assumption].
    exists (fst d). split; [|apply in_seq; lia].
    destruct d as [idx q]. simpl in *. now subst q.
Qed.

Lemma insert_Permutation (x : nat * QArith_base.Q) (l : list (nat * QArith_base.Q)) :
  Permutation.Permutation (Graph.insert x l) (x :: l).
Proof.
  induction l as [|y rest IH]; simpl; [apply Permutation.Permutation_refl|].
  destruct (QArith_base.Qle_bool (snd x) (snd y)); [apply Permutation.Permutation_refl|].
  apply Permutation.perm_trans with (y :: x :: rest);
    [now apply Permutation.perm_skip | apply Permutation.perm_swap].
Qed.

Lemma sort_Permutation (l : list (nat * QArith_base.Q)) :
  Permutation.Permutation (Graph.sort l) l.
Proof.
  induction l as [|x rest IH]; simpl; [constructor|].
  apply Permutation.perm_trans with (x :: Graph.sort rest);
    [apply insert_Permutation | now apply Permutation.perm_skip].
Qed.

Lemma distances_In (i : nat) (d : nat * QArith_base.Q) :
  In d (Graph.distances n dist i) ->
  fst d < n /\ fst d <> i /\ snd d = dist i (fst d).
Proof.
  intros H. apply In_firstn in H.
  apply (Permutation.Permutation_in _ (sort_Permutation _)) in H.
  now apply others_In.
Qed.

Lemma edgeExists_linked (edges : list Graph.Edge) (i idx : nat) :
  Graph.edgeExists edges i idx = true <-> Graph.linked edges i idx.
Proof.
  unfold Graph.edgeExists, Graph.linked, Graph.sameLink.
  rewrite existsb_exists. split; intros (e & Hin & H); exists e; (split; [assumption|]).
  - apply orb_true_iff in H. simpl.
    destruct H as [H|H]; apply andb_true_iff in H; destruct H as [H1 H2];
      apply Nat.eqb_eq in H1, H2; [left | right]; now split.
  - simpl in H. apply orb_true_iff.
    destruct H as [[-> ->]|[-> ->]]; [left | right]; now rewrite !Nat.eqb_refl.
Qed.

Lemma connect_keeps_links (i : nat) (edges : list Graph.Edge)
    (d : nat * QArith_base.Q) (j idx : nat) :
  Graph.linked edges j idx -> Graph.linked (Graph.connect i edges d) j idx.
Proof.
  intros (e & Hin & H). unfold Graph.connect.
  destruct (Graph.edgeExists edges i (fst d)); exists e; (split; [|assumption]);
    [assumption | apply in_or_app; now left].
Qed.

Lemma connect_links (i : nat) (edges : list Graph.Edge) (d : nat * QArith_base.Q) :
  Graph.linked (Graph.connect i edges d) i (fst d).
Proof.
  unfold Graph.connect. destruct (Graph.edgeExists edges i (fst d)) eqn:E.
  - now apply edgeExists_linked.
  - exists (Graph.mkEdge i (fst d)). split; [apply in_or_app; right; now left|].
    left. now split.
Qed.

(** One pass of [distances.forEach]: links there were stay, and node [i]
    is linked to every item of the pass. *)
Lemma connect_all (i : nat) (ds : list (nat * QArith_base.Q)) (edges : list Graph.Edge) :
  (forall j idx, Graph.linked edges j idx ->
                 Graph.linked (fold_left (Graph.connect i) ds edges) j idx) /\
  (forall d, In d ds -> Graph.linked (fold_left (Graph.connect i) ds edges) i (fst d)).
Proof.
  revert edges. induction ds as [|d0 ds IH]; intros edges; simpl.
  - split; [auto | intros d []].
  - destruct (IH (Graph.connect i edges d0)) as [Hkeep Hnew]. split.
    + intros j idx H. apply Hkeep. now apply connect_keeps_links.
    + intros d [<-|Hin]; [|now apply Hnew].
      apply Hkeep. apply connect_links.
Qed.

Lemma generateGraph_links (nodes : list nat) (edges : list Graph.Edge) :
  let result :=
    fold_left (fun edges i => fold_left (Graph.connect i) (Graph.distances n dist i) edges)
              nodes edges in
  (forall j idx, Graph.linked edges j idx -> Graph.linked result j idx) /\
  (forall i d, In i nodes -> In d (Graph.distances n dist i) ->
               Graph.linked result i (fst d)).
Proof.
  revert edges. induction nodes as [|i0 nodes IH]; intros edges; simpl.
  - split; [auto | intros i d []].
  - destruct (IH (fold_left (Graph.connect i0) (Graph.distances n dist i0) edges))
      as [Hkeep Hnew].
    destruct (connect_all i0 (Graph.distances n dist i0) edges) as [Hkeep0 Hnew0].
    split.
    + intros j idx H. apply Hkeep. now apply Hkeep0.
    + intros i d [<-|Hin] Hd; [|now apply Hnew].
      apply Hkeep. now apply Hnew0.
Qed.

End GraphFacts.

Lemma filter_out_one (i : nat) (l : list nat) :
  NoDup l -> In i l ->
  length (filter (fun idx => negb (idx =? i)%nat) l) = length l - 1.
Proof.
  induction 1 as [|a l Ha Hl IH]; intros Hin; [contradiction|].
  simpl. destruct (a =? i)%nat eqn:E; simpl.
  - apply Nat.eqb_eq in E. subst a. rewrite Nat.sub_0_r.
    rewrite forallb_filter_id; [reflexivity|].
    apply forallb_forall. intros x Hx. apply negb_true_iff, Nat.eqb_neq.
    intros ->. contradiction.
  - apply Nat.eqb_neq in E. destruct Hin as [Heq|Hin]; [contradiction|].
    rewrite (IH Hin). destruct l; [contradiction | simpl; lia].
Qed.

Lemma NoDup_firstn (A : Type) (k : nat) (l : list A) : NoDup l -> NoDup (firstn k l).
Proof.
  intros H. rewrite <- (firstn_skipn k l) in H. now apply NoDup_app_remove_r in H.
Qed.

Lemma StronglySorted_across (A : Type) (R : A -> A -> Prop) (l1 l2 : list A) (x y : A) :
  Sorted.StronglySorted R (l1 ++ l2) -> In x l1 -> In y l2 -> R x y.
Proof.
  induction l1 as [|a l1 IH]; intros Hsorted Hx Hy; [contradiction|].
  simpl in Hsorted. inversion Hsorted as [|a' l' Hrest Hall]; subst.
  destruct Hx as [<-|Hx]; [|now apply IH].
  rewrite Forall_forall in Hall. apply Hall. apply in_or_app. now right.
Qed.

Section GraphTheorems.

Variable n : nat.
Variable dist : nat -> nat -> QArith_base.Q.

Lemma others_fst (i : nat) :
  map fst (Graph.others n dist i) = filter (fun idx => negb (idx =? i)%nat) (seq 0 n).
Proof.
  unfold Graph.others. induction (seq 0 n) as [|a l IH]; [reflexivity|].
  simpl. destruct (a =? i)%nat; simpl; now rewrite IH.
Qed.

Lemma connect_length (i : nat) (ds : list (nat * QArith_base.Q)) (edges : list Graph.Edge) :
  length (fold_left (Graph.connect i) ds edges) <= length edges + length ds.
Proof.
  revert edges. induction ds as [|d ds IH]; intros edges; simpl; [lia|].
  specialize (IH (Graph.connect i edges d)). unfold Graph.connect in *.
  destruct (Graph.edgeExists edges i (fst d)); [lia|].
  rewrite length_app in IH. simpl in IH. lia.
Qed.

Lemma generateGraph_length (nodes : list nat) (edges : list Graph.Edge) :
  length (fold_left
            (fun edges i => fold_left (Graph.connect i) (Graph.distances n dist i) edges)
            nodes edges)
  <= length edges + 4 * length nodes.
Proof.
  revert edges. induction nodes as [|i nodes IH]; intros edges; simpl; [lia|].
  specialize (IH (fold_left (Graph.connect i) (Graph.distances n dist i) edges)).
  pose proof (connect_length i (Graph.distances n dist i) edges) as Hinner.
  assert (Hfour : length (Graph.distances n dist i) <= 4)
    by apply firstn_le_length.
  lia.
Qed.

Lemma connect_well_formed (i : nat) (d : nat * QArith_base.Q) (edges : list Graph.Edge) :
  i < n -> In d (Graph.distances n dist i) ->
  Forall (Graph.wellFormed n) edges /\
  ForallOrdPairs (fun e1 e2 => ~ Graph.sameLink e1 e2) edges ->
  Forall (Graph.wellFormed n) (Graph.connect i edges d) /\
  ForallOrdPairs (fun e1 e2 => ~ Graph.sameLink e1 e2) (Graph.connect i edges d).
Proof.
  intros Hi Hd [Hwf Hdistinct]. unfold Graph.connect.
  destruct (Graph.edgeExists edges i (fst d)) eqn:E; [now split|].
  destruct (distances_In n dist i d Hd) as (Hlt & Hne & _). split.
  - apply Forall_app. split; [assumption|]. constructor; [|constructor].
    repeat split; simpl; [assumption | assumption | congruence].
  - apply ForallOrdPairs_snoc; [assumption|].
    apply Forall_forall. intros e Hin Hsame.
    assert (Hlinked : Graph.linked edges i (fst d)) by (exists e; now split).
    apply edgeExists_linked in Hlinked. congruence.
Qed.

Lemma connect_edgesFrom (j : nat) (ds : list (nat * QArith_base.Q))
    (edges : list Graph.Edge) (i : nat) :
  length (edgesFrom i (fold_left (Graph.connect j) ds edges)) <=
  length (edgesFrom i edges) + (if (i =? j)%nat then length ds else 0).
Proof.
  revert edges. induction ds as [|d ds IH]; intros edges; simpl;
    [destruct (i =? j)%nat; lia|].
  specialize (IH (Graph.connect j edges d)).
  assert (Hstep : length (edgesFrom i (Graph.connect j edges d)) <=
                  length (edgesFrom i edges) + (if (i =? j)%nat then 1 else 0)).
  { unfold Graph.connect. destruct (Graph.edgeExists edges j (fst d));
      [destruct (i =? j)%nat; lia|].
    unfold edgesFrom. rewrite filter_app, length_app. simpl.
    rewrite (Nat.eqb_sym j i). destruct (i =? j)%nat; simpl; lia. }
  destruct (i =? j)%nat; lia.
Qed.

Lemma generateGraph_edgesFrom (nodes : list nat) (edges : list Graph.Edge) (i : nat) :
  NoDup nodes ->
  length (edgesFrom i
            (fold_left
               (fun edges j => fold_left (Graph.connect j) (Graph.distances n dist j) edges)
               nodes edges))
  <= length (edgesFrom i edges) + (if existsb (Nat.eqb i) nodes then 4 else 0).
Proof.
  intros Hnodup. revert edges.
  induction Hnodup as [|j nodes Hj Hnodup IH]; intros edges; simpl; [lia|].
  specialize (IH (fold_left (Graph.connect j) (Graph.distances n dist j) edges)).
  pose proof (connect_edgesFrom j (Graph.distances n dist j) edges i) as Hinner.
  assert (Hfour : length (Graph.distances n dist j) <= 4) by apply firstn_le_length.
  destruct (i =? j)%nat eqn:E; simpl.
  - apply Nat.eqb_eq in E. subst j.
    assert (Hout : existsb (Nat.eqb i) nodes = false).
    { destruct (existsb (Nat.eqb i) nodes) eqn:Ex; [|reflexivity].
      apply existsb_exists in Ex. destruct Ex as (x & Hx & Heq).
      apply Nat.eqb_eq in Heq. subst x. contradiction. }
    rewrite Hout in IH. lia.
  - destruct (existsb (Nat.eqb i) nodes); lia.
Qed.

(** The edges [generateGraph] builds, whatever the positions of the
    nodes: every edge joins two different nodes, both among the [n] (so
    the lookups [projectedNodes[edge.start]] and [projectedNodes[edge.end]]
    of the rendering are in range); no two edges join the same two nodes,
    in either direction; at most four edges start at any one node (a
    node may be the end of more); hence there are at most [4 * n] edges
    in all. *)
Theorem graph_edges_are_well_formed :
  Forall (Graph.wellFormed n) (Graph.generateGraph_edges n dist) /\
  ForallOrdPairs (fun e1 e2 => ~ Graph.sameLink e1 e2) (Graph.generateGraph_edges n dist) /\
  (forall i, length (edgesFrom i (Graph.generateGraph_edges n dist)) <= 4) /\
  length (Graph.generateGraph_edges n dist) <= 4 * n.
Proof.
  unfold Graph.generateGraph_edges.
  assert (H : Forall (Graph.wellFormed n)
                (fold_left (fun edges i =>
                              fold_left (Graph.connect i) (Graph.distances n dist i) edges)
                           (seq 0 n) []) /\
              ForallOrdPairs (fun e1 e2 => ~ Graph.sameLink e1 e2)
                (fold_left (fun edges i =>
                              fold_left (Graph.connect i) (Graph.distances n dist i) edges)
                           (seq 0 n) [])).
  { apply (fold_left_invariant _ _
             (fun edges => Forall (Graph.wellFormed n) edges /\
                           ForallOrdPairs (fun e1 e2 => ~ Graph.sameLink e1 e2) edges)).
    - split; constructor.
    - intros edges i Hi Hedges. apply in_seq in Hi.
      apply (fold_left_invariant _ _
               (fun edges => Forall (Graph.wellFormed n) edges /\
                             ForallOrdPairs (fun e1 e2 => ~ Graph.sameLink e1 e2) edges));
        [assumption|].
      intros edges' d Hd Hedges'. apply connect_well_formed; [lia | assumption..]. }
  destruct H as [Hwf Hdistinct]. split; [assumption|]. split; [assumption|]. split.
  - intros i.
    pose proof (generateGraph_edgesFrom (seq 0 n) [] i (seq_NoDup n 0)) as Hfrom.
    simpl in Hfrom. destruct (existsb (Nat.eqb i) (seq 0 n)); lia.
  - pose proof (generateGraph_length (seq 0 n) []) as Hlen.
    rewrite length_seq in Hlen. simpl in Hlen. exact Hlen.
Qed.

(** Every node is joined to its nearest neighbours.  For a node [i] of
    the graph, the loop picks [min 4 (n - 1)] other nodes, all different,
    and the finished list of edges has an edge between [i] and each of
    them (added by [i]'s own pass, or by the pass of the other node
    before). *)
Theorem graph_links_every_node (i : nat) :
  i < n ->
  length (Graph.distances n dist i) = Nat.min 4 (n - 1) /\
  NoDup (map fst (Graph.distances n dist i)) /\
  forall d, In d (Graph.distances n dist i) ->
            Graph.linked (Graph.generateGraph_edges n dist) i (fst d).
Proof.
  intros Hi.
  assert (Hnodup : NoDup (map fst (Graph.others n dist i))).
  { rewrite others_fst. apply NoDup_filter, seq_NoDup. }
  split; [|split].
  - unfold Graph.distances. rewrite length_firstn.
    rewrite (Permutation.Permutation_length (sort_Permutation (Graph.others n dist i))).
    rewrite <- (length_map fst), others_fst, filter_out_one;
      [now rewrite length_seq | apply seq_NoDup | apply in_seq; lia].
  - unfold Graph.distances. rewrite <- firstn_map. apply NoDup_firstn.
    apply (Permutation.Permutation_NoDup
             (Permutation.Permutation_sym
                (Permutation.Permutation_map fst (sort_Permutation _)))).
    exact Hnodup.
  - intros d Hd. unfold Graph.generateGraph_edges.
    apply (generateGraph_links n dist (seq 0 n) []); [apply in_seq; lia | assumption].
Qed.

Lemma insert_sorted (x : nat * QArith_base.Q) (l : list (nat * QArith_base.Q)) :
  Sorted.StronglySorted (fun a b => QArith_base.Qle (snd a) (snd b)) l ->
  Sorted.StronglySorted (fun a b => QArith_base.Qle (snd a) (snd b)) (Graph.insert x l).
Proof.
  induction 1 as [|y rest Hrest IH Hall]; simpl.
  - constructor; constructor.
  - destruct (QArith_base.Qle_bool (snd x) (snd y)) eqn:E.
    + apply QArith_base.Qle_bool_iff in E. constructor.
      * now constructor.
      * constructor; [assumption|].
        apply Forall_forall. intros z Hz. rewrite Forall_forall in Hall.
        apply QArith_base.Qle_trans with (snd y); [assumption | now apply Hall].
    + constructor; [assumption|].
      apply Forall_forall. intros z Hz.
      apply (Permutation.Permutation_in _ (insert_Permutation x rest)) in Hz.
      destruct Hz as [<-|Hz].
      * apply QArith_base.Qlt_le_weak, QArith_base.Qnot_le_lt.
        intros Hle. apply QArith_base.Qle_bool_iff in Hle. congruence.
      * rewrite Forall_forall in Hall. now apply Hall.
Qed.

Lemma sort_sorted (l : list (nat * QArith_base.Q)) :
  Sorted.StronglySorted (fun a b => QArith_base.Qle (snd a) (snd b)) (Graph.sort l).
Proof.
  induction l as [|x rest IH]; simpl; [constructor | now apply insert_sorted].
Qed.

(** The neighbours picked are the nearest.  No node left out of the pick
    of node [i] is nearer to [i] than a node in it. *)
Theorem graph_picks_the_nearest (i j : nat) (d : nat * QArith_base.Q) :
  In d (Graph.distances n dist i) ->
  j < n -> j <> i ->
  ~ In j (map fst (Graph.distances n dist i)) ->
  QArith_base.Qle (dist i (fst d)) (dist i j).
Proof.
  intros Hd Hj Hne Hout.
  destruct (distances_In n dist i d Hd) as (_ & _ & <-).
  assert (Hin : In (j, dist i j) (Graph.sort (Graph.others n dist i))).
  { apply (Permutation.Permutation_in _
             (Permutation.Permutation_sym (sort_Permutation _))).
    apply others_In. simpl. repeat split; assumption. }
  rewrite <- (firstn_skipn 4 (Graph.sort (Graph.others n dist i))) in Hin.
  apply in_app_or in Hin. destruct Hin as [Hin|Hin].
  - contradiction Hout. apply in_map_iff. now exists (j, dist i j).
  - pose proof (sort_sorted (Graph.others n dist i)) as Hsorted.
    rewrite <- (firstn_skipn 4 (Graph.sort (Graph.others n dist i))) in Hsorted.
    exact (StronglySorted_across _ _ _ _ d (j, dist i j) Hsorted Hd Hin).
Qed.

End GraphTheorems.

Lemma graph_links_every_node_witness :
  length (Graph.distances 6 Graph.onALine 2) = 4 /\
  NoDup (map fst (Graph.distances 6 Graph.onALine 2)) /\
  forall d, In d (Graph.distances 6 Graph.onALine 2) ->
            Graph.linked (Graph.generateGraph_edges 6 Graph.onALine) 2 (fst d).
Proof.
  apply (graph_links_every_node 6 Graph.onALine 2). lia.
Defined.

Lemma graph_picks_the_nearest_witness :
  QArith_base.Qle (Graph.onALine 0 (fst (4, Graph.onALine 0 4))) (Graph.onALine 0 5).
Proof.
  apply (graph_picks_the_nearest 6 Graph.onALine 0 5 (4, Graph.onALine 0 4)).
  - vm_compute. right. right. right. left. reflexivity.
  - lia.
  - discriminate.
  - vm_compute. intros [H|[H|[H|[H|[]]]]]; discriminate.
Defined.
